(** * Mofid anniversary bots: planner, selector and control loops

    A shallow embedding of [rocket_bot.py] (the steering bot) and
    [shooter_bot.py] (the click bot), and the properties of their
    perception-to-actuation logic.

    Numbers.  Pixel coordinates, box sizes and frame widths are Python
    integers and are modelled by [Z].  Every quantity that is a Python or
    NumPy float in the source (contour areas, image moments, distances
    produced by [np.sqrt], danger radii, danger scores, clock readings) is
    modelled by a real number: the development is about the arithmetic the
    source writes, with float64 rounding left out.  [float('inf')] is a
    separate constructor of [score].  Comparisons of reals do not compute:
    on concrete scenes they are settled by [float_cmp], and the tests of
    the planner that only involve integers have deciders in [Exact].

    The one place where rounding decides the result is the fallback scan of
    [calculate_safe_move]: it compares sums of floats, and positions whose
    exact sums are equal can get different float64 sums.  The scan is
    therefore embedded a second time, in [RocketBot64], on binary64 values
    with the operations of IEEE 754 (the specification of floats of the
    Standard Library); what is said about which position the scan keeps is
    said of that embedding.

    Environment.  OpenCV, the screen, the pointer, the keyboard and the
    clock are outside the repository.  A contour is the record of what
    OpenCV measures on it, a run of a loop is driven by the list of what
    each iteration observes, and the pointer is the log of the operations
    sent to it.  [pyautogui.FAILSAFE] is [True]: a pyautogui call raises
    before it acts while the pointer is in a corner of the screen, the
    release in the [finally] block of the steering bot included. *)

From Stdlib Require Import ZArith List Bool Lia Reals Lra R_Ifp Permutation Sorted.
From Stdlib Require SpecFloat.
Import ListNotations.

Local Open Scope Z_scope.

(** ** Numeric primitives *)

Module Num.

(** The boolean value of the Python comparison [x < y] on floats. *)
Definition Rltb (x y : R) : bool := if Rlt_dec x y then true else false.

(** The boolean value of the Python comparison [x >= y] on floats. *)
Definition Rgeb (x y : R) : bool := if Rge_dec x y then true else false.

(** Python's [int(x)] on a float: truncation toward zero. *)
Definition np_int (x : R) : Z :=
  if Rle_dec 0 x then Int_part x else - Int_part (- x).

(** [np.sqrt] on a Python integer. *)
Definition np_sqrt (n : Z) : R := sqrt (IZR n).

(** A float that may be [float('inf')]. *)
Inductive score : Type :=
| Fin (r : R)
| Inf.

(** [d < s] where [d] is finite and [s] may be infinite. *)
Definition below (d : R) (s : score) : bool :=
  match s with
  | Fin r => Rltb d r
  | Inf => true
  end.

End Num.
Import Num.

(** ** binary64

    A Python float and a [np.float64] are IEEE 754 binary64 values: 53 bits
    of precision, results rounded to nearest, ties to even. *)

Module F64.

Definition prec : Z := 53.
Definition emax : Z := 1024.

Definition float : Type := SpecFloat.spec_float.

(** The float of a Python integer, as [int * float], [float * int] and
    [np.sqrt(int)] convert it: the nearest binary64 value.  (Python raises
    on integers beyond the range of floats; they do not occur at pixel
    scale.) *)
Definition of_int (n : Z) : float := SpecFloat.binary_normalize prec emax n 0 false.

(** The literal [1.5], that is 3 / 2. *)
Definition one_and_half : float := SpecFloat.binary_normalize prec emax 3 (-1) false.

Definition zero : float := SpecFloat.S754_zero false.

(** [float('inf')] *)
Definition inf : float := SpecFloat.S754_infinity false.

Definition add : float -> float -> float := SpecFloat.SFadd prec emax.
Definition sub : float -> float -> float := SpecFloat.SFsub prec emax.
Definition mul : float -> float -> float := SpecFloat.SFmul prec emax.
Definition sqrt : float -> float := SpecFloat.SFsqrt prec emax.

(** [x < y] and [x <= y]: false when an operand is NaN. *)
Definition ltb : float -> float -> bool := SpecFloat.SFltb.
Definition leb : float -> float -> bool := SpecFloat.SFleb.

(** The place of a float in the order of the comparisons: the sign class,
    then the exponent, then the mantissa; NaN has no place and the two
    zeros share one. *)
Definition rank (f : float) : option (Z * Z * Z) :=
  match f with
  | SpecFloat.S754_nan => None
  | SpecFloat.S754_infinity true => Some (-2, 0, 0)
  | SpecFloat.S754_finite true m e => Some (-1, - e, - Z.pos m)
  | SpecFloat.S754_zero _ => Some (0, 0, 0)
  | SpecFloat.S754_finite false m e => Some (1, e, Z.pos m)
  | SpecFloat.S754_infinity false => Some (2, 0, 0)
  end.

Definition lex_lt (a b : Z * Z * Z) : Prop :=
  let '(a1, a2, a3) := a in
  let '(b1, b2, b3) := b in
  a1 < b1 \/ (a1 = b1 /\ (a2 < b2 \/ (a2 = b2 /\ a3 < b3))).

Definition lt (a b : float) : Prop :=
  match rank a, rank b with
  | Some ka, Some kb => lex_lt ka kb
  | _, _ => False
  end.

Definition le (a b : float) : Prop :=
  match rank a, rank b with
  | Some ka, Some kb => lex_lt ka kb \/ ka = kb
  | _, _ => False
  end.

End F64.

(** ** Python's stable sort and [range] *)

Section PySort.
Context {A : Type}.
(** [leb x y] holds when the sort key of [x] may stand before that of [y]. *)
Variable leb : A -> A -> bool.

Fixpoint insert_sorted (x : A) (l : list A) : list A :=
  match l with
  | [] => [x]
  | y :: l' => if leb x y then x :: y :: l' else y :: insert_sorted x l'
  end.

(** [sorted(l, key=...)] and [l.sort(key=...)]: a stable sort, an element
    stays in front of the later elements whose key is equal. *)
Definition py_sorted (l : list A) : list A := fold_right insert_sorted [] l.
End PySort.

(** [range(start, stop, step)] for a positive step. *)
Definition py_range (start stop step : Z) : list Z :=
  map (fun i => start + step * Z.of_nat i)
      (seq 0 (Z.to_nat ((stop - start + step - 1) / step))).

(** ** rocket_bot.py: the steering bot *)

Module RocketBot.

(** A contour is an object of OpenCV, which is not part of the repository:
    it is represented by the values OpenCV's measurement functions return
    on it. *)
Record contour : Type := {
  contourArea : R;                 (* cv2.contourArea(contour) *)
  m00 : R;                         (* cv2.moments(contour)['m00'] *)
  m10 : R;                         (* cv2.moments(contour)['m10'] *)
  m01 : R;                         (* cv2.moments(contour)['m01'] *)
  boundingRect : Z * Z * Z * Z     (* cv2.boundingRect(contour) = (x, y, w, h) *)
}.

(** The dictionary [find_fireballs] builds for one fireball. *)
Record fireball : Type := {
  center : Z * Z;
  bounds : Z * Z * Z * Z;
  danger_radius : Z
}.

(** An item is the tuple [(cx, cy, area)]. *)
Definition item : Type := (Z * Z * R)%type.

(** A danger zone is the tuple [(fcx, fcy, radius)]. *)
Definition zone : Type := (Z * Z * R)%type.

(** *** calculate_safe_move *)

(** The first loop of [calculate_safe_move]: one zone per fireball. *)
Definition danger_zones (fireballs : list fireball) : list zone :=
  map (fun fb => let '(fcx, fcy) := center fb in
                 (fcx, fcy, (IZR (danger_radius fb) * 1.5)%R)) fireballs.

(** [np.sqrt((x - dx)**2 + (y - dy)**2)] *)
Definition distance (x y dx dy : Z) : R := np_sqrt ((x - dx) ^ 2 + (y - dy) ^ 2).

(** The nested function [is_safe(x, y)]; it closes over [danger_zones]. *)
Fixpoint is_safe (danger_zones : list zone) (x y : Z) : bool :=
  match danger_zones with
  | [] => true
  | (dx, dy, radius) :: rest =>
      let dist := distance x y dx dy in
      if Rltb dist radius then false else is_safe rest x y
  end.

(** [np.linspace(0, 1, 5)] *)
Definition linspace_0_1_5 : list R := [0; 0.25; 0.5; 0.75; 1]%R.

(** The point [(px, py)] computed for the parameter [t]. *)
Definition sample (rx ry ix iy : Z) (t : R) : Z * Z :=
  (np_int (IZR rx + t * IZR (ix - rx)), np_int (IZR ry + t * IZR (iy - ry))).

(** The inner loop [for t in np.linspace(0, 1, 5)] with its [break]; the
    result is the final value of [path_safe]. *)
Fixpoint path_loop (zones : list zone) (rx ry ix iy : Z) (ts : list R) : bool :=
  match ts with
  | [] => true
  | t :: ts' =>
      let '(px, py) := sample rx ry ix iy t in
      if negb (is_safe zones px py) then false
      else path_loop zones rx ry ix iy ts'
  end.

Definition path_safe (zones : list zone) (rx ry ix iy : Z) : bool :=
  path_loop zones rx ry ix iy linspace_0_1_5.

(** The loop [for item in items]; it threads [best_target] and [best_score]. *)
Fixpoint item_loop (zones : list zone) (rx ry : Z) (items : list item)
         (best_target : option (Z * Z)) (best_score : score)
  : option (Z * Z) * score :=
  match items with
  | [] => (best_target, best_score)
  | (ix, iy, _) :: items' =>
      if path_safe zones rx ry ix iy then
        let dist := distance ix iy rx ry in
        if below dist best_score
        then item_loop zones rx ry items' (Some (ix, iy)) (Fin dist)
        else item_loop zones rx ry items' best_target best_score
      else item_loop zones rx ry items' best_target best_score
  end.

(** The loop [for dx, dy, radius in danger_zones] of the fallback; it
    threads [danger_score]. *)
Fixpoint danger_loop (zones : list zone) (test_x ry : Z) (danger_score : R) : R :=
  match zones with
  | [] => danger_score
  | (dx, dy, radius) :: rest =>
      let dist := distance test_x ry dx dy in
      if Rltb dist (radius * 2)
      then danger_loop rest test_x ry (danger_score + (radius * 2 - dist))
      else danger_loop rest test_x ry danger_score
  end.

(** The loop [for test_x in range(50, frame_width - 50, 20)]; it threads
    [safe_x] and [min_danger]. *)
Fixpoint scan_loop (zones : list zone) (ry : Z) (xs : list Z)
         (safe_x : Z) (min_danger : score) : Z * score :=
  match xs with
  | [] => (safe_x, min_danger)
  | test_x :: xs' =>
      let danger_score := danger_loop zones test_x ry 0 in
      if below danger_score min_danger
      then scan_loop zones ry xs' test_x (Fin danger_score)
      else scan_loop zones ry xs' safe_x min_danger
  end.

(** The positions of the horizontal scan. *)
Definition scan_positions (frame_width : Z) : list Z :=
  py_range 50 (frame_width - 50) 20.

Definition calculate_safe_move (rocket_pos : option (Z * Z)) (items : list item)
           (fireballs : list fireball) (frame_width : Z) : option (Z * Z) :=
  match rocket_pos with
  | None => None
  | Some (rx, ry) =>
      let zones := danger_zones fireballs in
      match fst (item_loop zones rx ry items None Inf) with
      | Some best_target => Some best_target
      | None =>
          let safe_x := fst (scan_loop zones ry (scan_positions frame_width) rx Inf) in
          Some (safe_x, ry)
      end
  end.

(** *** Detection: find_rocket, find_items, find_fireballs

    A frame reaches these functions through OpenCV: colour conversion,
    [cv2.inRange] and [cv2.findContours].  Each function is given the list
    of contours that [cv2.findContours] returned for its mask. *)

(** [sorted(contours, key=cv2.contourArea, reverse=True)]: the larger area
    first. *)
Definition area_desc (a b : contour) : bool := Rgeb (contourArea a) (contourArea b).

(** The loop of [find_rocket] over the sorted contours; [Some (cx, cy)] when
    it reaches the assignment of [self.rocket_pos]. *)
Fixpoint rocket_loop (contours : list contour) : option (Z * Z) :=
  match contours with
  | [] => None
  | contour :: rest =>
      let area := contourArea contour in
      if Rltb 500 area && Rltb area 10000 then
        if Rltb 0 (m00 contour) then
          let cx := np_int (m10 contour / m00 contour) in
          let cy := np_int (m01 contour / m00 contour) in
          Some (cx, cy)
        else rocket_loop rest
      else rocket_loop rest
  end.

(** [find_rocket]: the argument [rocket_pos] is [self.rocket_pos] before the
    call; the result is the returned value and [self.rocket_pos] after it. *)
Definition find_rocket (rocket_pos : option (Z * Z)) (contours : list contour)
  : option (Z * Z) * option (Z * Z) :=
  match rocket_loop (py_sorted area_desc contours) with
  | Some p => (Some p, Some p)
  | None => (rocket_pos, rocket_pos)
  end.

Fixpoint find_items (contours : list contour) : list item :=
  match contours with
  | [] => []
  | contour :: rest =>
      let area := contourArea contour in
      if Rltb 1000 area && Rltb area 20000 then
        let '(x, y, w, h) := boundingRect contour in
        let aspect_ratio := if 0 <? h then (IZR w / IZR h)%R else 0%R in
        if Rltb 0.5 aspect_ratio && Rltb aspect_ratio 2.0 then
          let cx := x + w / 2 in
          let cy := y + h / 2 in
          (cx, cy, area) :: find_items rest
        else find_items rest
      else find_items rest
  end.

Fixpoint find_fireballs (contours : list contour) : list fireball :=
  match contours with
  | [] => []
  | contour :: rest =>
      let area := contourArea contour in
      if Rltb 2000 area then
        let '(x, y, w, h) := boundingRect contour in
        let cx := x + w / 2 in
        let cy := y + h / 2 in
        {| center := (cx, cy); bounds := (x, y, w, h); danger_radius := Z.max w h |}
          :: find_fireballs rest
      else find_fireballs rest
  end.

(** The centroid of a contour from its image moments, as [find_rocket]
    computes it. *)
Definition moment_centroid (c : contour) : Z * Z :=
  (np_int (m10 c / m00 c), np_int (m01 c / m00 c)).

(** The centre of a bounding box [(x, y, w, h)]. *)
Definition bbox_center (b : Z * Z * Z * Z) : Z * Z :=
  let '(x, y, w, h) := b in (x + w / 2, y + h / 2).

End RocketBot.

(** ** rocket_bot.py: the fallback scan of calculate_safe_move in binary64

    The danger score of a scanned position is a float64 sum whose terms are
    added in the order of the fireballs, and the scan keeps a position by
    comparing such sums.  Here every float of the scan is a binary64 value.
    The loop over the items compares distances and adds nothing; it is the
    one of [RocketBot]. *)

Module RocketBot64.
Import RocketBot.

(** A danger zone is the tuple [(fcx, fcy, radius)]. *)
Definition zone : Type := (Z * Z * F64.float)%type.

(** The first loop of [calculate_safe_move];
    [radius = fb['danger_radius'] * 1.5]. *)
Definition danger_zones (fireballs : list fireball) : list zone :=
  map (fun fb => let '(fcx, fcy) := center fb in
                 (fcx, fcy, F64.mul (F64.of_int (danger_radius fb)) F64.one_and_half))
      fireballs.

(** [np.sqrt((x - dx)**2 + (y - dy)**2)]: the sum of the squares is a
    Python integer. *)
Definition distance (x y dx dy : Z) : F64.float :=
  F64.sqrt (F64.of_int ((x - dx) ^ 2 + (y - dy) ^ 2)).

(** The loop [for dx, dy, radius in danger_zones] of the fallback; it
    threads [danger_score]. *)
Fixpoint danger_loop (zones : list zone) (test_x ry : Z) (danger_score : F64.float)
  : F64.float :=
  match zones with
  | [] => danger_score
  | (dx, dy, radius) :: rest =>
      let dist := distance test_x ry dx dy in
      if F64.ltb dist (F64.mul radius (F64.of_int 2))
      then danger_loop rest test_x ry
             (F64.add danger_score (F64.sub (F64.mul radius (F64.of_int 2)) dist))
      else danger_loop rest test_x ry danger_score
  end.

(** The loop [for test_x in range(50, frame_width - 50, 20)]; it threads
    [safe_x] and [min_danger].  [danger_score] starts as the integer 0,
    which adds and compares as the float 0.0. *)
Fixpoint scan_loop (zones : list zone) (ry : Z) (xs : list Z)
         (safe_x : Z) (min_danger : F64.float) : Z * F64.float :=
  match xs with
  | [] => (safe_x, min_danger)
  | test_x :: xs' =>
      let danger_score := danger_loop zones test_x ry F64.zero in
      if F64.ltb danger_score min_danger
      then scan_loop zones ry xs' test_x danger_score
      else scan_loop zones ry xs' safe_x min_danger
  end.

Definition calculate_safe_move (rocket_pos : option (Z * Z)) (items : list item)
           (fireballs : list fireball) (frame_width : Z) : option (Z * Z) :=
  match rocket_pos with
  | None => None
  | Some (rx, ry) =>
      match fst (item_loop (RocketBot.danger_zones fireballs) rx ry items None Inf) with
      | Some best_target => Some best_target
      | None =>
          let safe_x :=
            fst (scan_loop (danger_zones fireballs) ry (scan_positions frame_width)
                           rx F64.inf) in
          Some (safe_x, ry)
      end
  end.

(** The value of [danger_score] that the scan compares for the position
    [test_x]. *)
Definition danger_score_at (fireballs : list fireball) (test_x ry : Z) : F64.float :=
  danger_loop (danger_zones fireballs) test_x ry F64.zero.

End RocketBot64.

(** ** rocket_bot.py: move_rocket and the run loop

    The loop runs against an environment: the screen, the keyboard
    listener, the debug window and the exceptions that calls may raise.  One
    [tick] scripts what the environment does during one iteration.  A call
    either completes or raises before it has had an effect; the press of
    the button has a second raise point, after its effect.  What happens to
    the release in the [finally] block is an input of [run]. *)

Module RocketRun.
Import RocketBot.

Record region : Type := { left : Z; top : Z; width : Z; height : Z }.

(** What OpenCV extracts from one captured frame. *)
Record frame : Type := {
  purple : list contour;     (* contours of the rocket mask *)
  white : list contour;      (* contours of the item mask *)
  orange : list contour;     (* contours of the merged fireball mask *)
  shape1 : Z                 (* frame.shape[1], the width *)
}.

(** The pyautogui operations that act on the pointer. *)
Inductive pointer_op : Type :=
| MoveTo (x y : Z)
| MouseDown
| MouseUp.

(** The fields of [self] that the loop uses, and the pointer operations
    performed so far, newest first. *)
Record bot : Type := {
  game_region : option region;
  rocket_pos : option (Z * Z);
  running : bool;
  mouse_pressed : bool;
  emergency_stop : bool;
  pointer : list pointer_op
}.

Definition set_rocket_pos (p : option (Z * Z)) (s : bot) : bot :=
  {| game_region := game_region s; rocket_pos := p; running := running s;
     mouse_pressed := mouse_pressed s; emergency_stop := emergency_stop s;
     pointer := pointer s |}.

Definition set_running (b : bool) (s : bot) : bot :=
  {| game_region := game_region s; rocket_pos := rocket_pos s; running := b;
     mouse_pressed := mouse_pressed s; emergency_stop := emergency_stop s;
     pointer := pointer s |}.

Definition set_mouse_pressed (b : bool) (s : bot) : bot :=
  {| game_region := game_region s; rocket_pos := rocket_pos s; running := running s;
     mouse_pressed := b; emergency_stop := emergency_stop s;
     pointer := pointer s |}.

Definition set_emergency_stop (b : bool) (s : bot) : bot :=
  {| game_region := game_region s; rocket_pos := rocket_pos s; running := running s;
     mouse_pressed := mouse_pressed s; emergency_stop := b;
     pointer := pointer s |}.

Definition do_pointer (op : pointer_op) (s : bot) : bot :=
  {| game_region := game_region s; rocket_pos := rocket_pos s; running := running s;
     mouse_pressed := mouse_pressed s; emergency_stop := emergency_stop s;
     pointer := op :: pointer s |}.

(** Whether the button is held after the operations of a log. *)
Fixpoint button_down (log : list pointer_op) : bool :=
  match log with
  | [] => false
  | MouseDown :: _ => true
  | MouseUp :: _ => false
  | MoveTo _ _ :: older => button_down older
  end.

(** [RocketBot.__init__] with a game region set. *)
Definition init (r : option region) : bot :=
  {| game_region := r; rocket_pos := None; running := false;
     mouse_pressed := false; emergency_stop := false; pointer := [] |}.

Inductive exn : Type :=
| KeyboardInterrupt
| OtherException.

(** The calls of one iteration that may raise.  [PressButton] is
    [pyautogui.mouseDown] raising before the button goes down;
    [AfterPress] is an exception that arrives once the button is down and
    before [self.mouse_pressed = True] is executed: [mouseDown] ends with a
    sleep of [pyautogui.PAUSE] seconds, in which an interrupt can land. *)
Inductive site : Type :=
| CaptureGame | RetrySleep | FindRocket | FindItems | FindFireballs
| MoveToRocket | PostMoveSleep | PressButton | AfterPress | RegisterSleep
| MousePosition | DragToTarget | DebugWindow | FpsSleep.

Definition site_eqb (a b : site) : bool :=
  match a, b with
  | CaptureGame, CaptureGame | RetrySleep, RetrySleep | FindRocket, FindRocket
  | FindItems, FindItems | FindFireballs, FindFireballs
  | MoveToRocket, MoveToRocket | PostMoveSleep, PostMoveSleep
  | PressButton, PressButton | AfterPress, AfterPress
  | RegisterSleep, RegisterSleep
  | MousePosition, MousePosition | DragToTarget, DragToTarget
  | DebugWindow, DebugWindow | FpsSleep, FpsSleep => true
  | _, _ => false
  end.

Record tick : Type := {
  grabbed : frame;                 (* what [self.sct.grab] yields *)
  stop_key : bool;                 (* ESC or F12 is pressed: [on_press] runs *)
  quit_key : bool;                 (* [cv2.waitKey] reports q or ESC *)
  raised : option (exn * site)     (* a call of this iteration raises *)
}.

(** A computation on the bot that may raise. *)
Inductive outcome (A : Type) : Type :=
| Ok (a : A)
| Raise (e : exn).
Arguments Ok {A} a.
Arguments Raise {A} e.

Definition M (A : Type) : Type := bot -> outcome A * bot.

Definition ret {A : Type} (a : A) : M A := fun s => (Ok a, s).

Definition bind {A B : Type} (m : M A) (f : A -> M B) : M B :=
  fun s => match m s with
           | (Ok a, s') => f a s'
           | (Raise e, s') => (Raise e, s')
           end.

Definition modify (f : bot -> bot) : M unit := fun s => (Ok tt, f s).

Definition throw {A : Type} (e : exn) : M A := fun s => (Raise e, s).

Notation "x <- m ;; f" := (bind m (fun x => f))
  (at level 61, m at next level, right associativity).
Notation "m ;; f" := (bind m (fun _ => f))
  (at level 61, right associativity).

(** A call at [here]: it raises when the tick says so. *)
Definition call (t : tick) (here : site) : M unit :=
  match raised t with
  | Some (e, s) => if site_eqb s here then throw e else ret tt
  | None => ret tt
  end.

Definition move_rocket (t : tick) (target_x : Z) (rocket_pos : option (Z * Z)) : M unit :=
  fun s =>
    match game_region s, rocket_pos with
    | Some reg, Some (r0, r1) =>
        let rocket_screen_x := left reg + r0 in
        let rocket_screen_y := top reg + r1 in
        let target_screen_x := left reg + target_x in
        let target_screen_y := rocket_screen_y in
        if negb (mouse_pressed s) then
          (call t MoveToRocket ;;
           modify (do_pointer (MoveTo rocket_screen_x rocket_screen_y)) ;;
           call t PostMoveSleep ;;
           call t PressButton ;;
           modify (do_pointer MouseDown) ;;
           call t AfterPress ;;
           modify (set_mouse_pressed true) ;;
           call t RegisterSleep ;;
           ret tt) s
        else
          (call t MousePosition ;;
           call t DragToTarget ;;
           modify (do_pointer (MoveTo target_screen_x target_screen_y))) s
    | _, _ => (Ok tt, s)
    end.

(** [on_press] for ESC or F12, run by the listener thread. *)
Definition on_press (s : bot) : bot := set_running false (set_emergency_stop true s).

(** [capture_game]: no frame without a game region. *)
Definition capture_game (t : tick) : M (option frame) :=
  fun s =>
    match game_region s with
    | None => (Ok None, s)
    | Some _ => (call t CaptureGame ;; ret (Some (grabbed t))) s
    end.

(** How an iteration hands control back to the [while]. *)
Inductive flow : Type :=
| Continue
| Break.

(** The local variable [target]: [None] while it is unbound. *)
Definition local_target : Type := option (option (Z * Z)).

(** The body of the [while] loop.  Reading [target] in the debug part
    while it is unbound raises. *)
Definition iteration (debug : bool) (t : tick) (target : local_target)
  : M (flow * local_target) :=
  frame <- capture_game t ;;
  match frame with
  | None => call t RetrySleep ;; ret (Continue, target)
  | Some frame =>
      call t FindRocket ;;
      old <- (fun s => (Ok (rocket_pos s), s)) ;;
      let '(rocket_pos, stored) := find_rocket old (purple frame) in
      modify (set_rocket_pos stored) ;;
      call t FindItems ;;
      let items := find_items (white frame) in
      call t FindFireballs ;;
      let fireballs := find_fireballs (orange frame) in
      target <- match rocket_pos with
                | Some _ =>
                    let target := calculate_safe_move rocket_pos items fireballs (shape1 frame) in
                    match target with
                    | Some tg => move_rocket t (fst tg) rocket_pos
                    | None => ret tt
                    end ;;
                    ret (Some target)
                | None => ret target
                end ;;
      if debug then
        call t DebugWindow ;;
        match target with
        | None => throw OtherException
        | Some _ =>
            if quit_key t then ret (Break, target)
            else call t FpsSleep ;; ret (Continue, target)
        end
      else call t FpsSleep ;; ret (Continue, target)
  end.

(** How the [while] loop is left. *)
Inductive loop_exit : Type :=
| Stopped                  (* the loop condition is false *)
| Quit                     (* [break] from the debug window *)
| Raised (e : exn).

(** The [while self.running and not self.emergency_stop] loop over the
    scripted iterations; [None] when the script ends with the loop still
    running. *)
Fixpoint loop (debug : bool) (ticks : list tick) (target : local_target) (s : bot)
  : option loop_exit * bot :=
  if running s && negb (emergency_stop s) then
    match ticks with
    | [] => (None, s)
    | t :: ticks' =>
        let s := if stop_key t then on_press s else s in
        match iteration debug t target s with
        | (Ok (Continue, target'), s') => loop debug ticks' target' s'
        | (Ok (Break, _), s') => (Some Quit, s')
        | (Raise e, s') => (Some (Raised e), s')
        end
    end
  else (Some Stopped, s).

(** The [finally] block, up to the release.  [release] is what the
    environment does to the call [pyautogui.mouseUp()]: [Some e] when the
    call raises [e] before it acts (the fail-safe check of pyautogui with
    the pointer in a corner of the screen, or an interrupt), [None] when it
    completes.  The call is only made when the flag is set. *)
Definition finally (release : option exn) : M unit :=
  modify (set_running false) ;;
  fun s =>
    if mouse_pressed s then
      match release with
      | Some e => throw e s
      | None => modify (do_pointer MouseUp) s
      end
    else ret tt s.

(** How [run] ends: it returns, or an exception leaves it. *)
Inductive run_exit : Type :=
| Returned (how : loop_exit)
| Propagated (e : exn).

(** [run]: [None] when the script ends with the loop still running.  An
    exception raised in the [finally] block replaces the one in flight and
    leaves [run], whatever its kind. *)
Definition run (debug : bool) (ticks : list tick) (release : option exn) (s : bot)
  : option run_exit * bot :=
  let s := set_running true s in
  match loop debug ticks None s with
  | (None, s') => (None, s')
  | (Some how, s') =>
      match finally release s' with
      | (Raise e, s'') => (Some (Propagated e), s'')
      | (Ok _, s'') =>
          match how with
          | Raised OtherException => (Some (Propagated OtherException), s'')
          | _ => (Some (Returned how), s'')
          end
      end
  end.

(** The flag [mouse_pressed] tells whether the button is held. *)
Definition consistent (s : bot) : Prop := button_down (pointer s) = mouse_pressed s.

End RocketRun.

(** ** shooter_bot.py: the click bot *)

Module ShooterBot.

(** A red box is the tuple [(x, y, w, h)] that [find_red_boxes] returns. *)
Definition box : Type := (Z * Z * Z * Z)%type.

Record region : Type := { left : Z; top : Z; width : Z; height : Z }.

(** [lambda box: (box[1], box[0])] *)
Definition sort_key (b : box) : Z * Z := let '(x, y, _, _) := b in (y, x).

(** Python's order [a <= b] on pairs of integers. *)
Definition tuple_le (a b : Z * Z) : bool :=
  (fst a <? fst b) || ((fst a =? fst b) && (snd a <=? snd b)).

Definition by_key (a b : box) : bool := tuple_le (sort_key a) (sort_key b).

(** [red_boxes.sort(key=...)] followed by [red_boxes[0]]. *)
Definition first_box (red_boxes : list box) : option box :=
  hd_error (py_sorted by_key red_boxes).

(** The point where [run_bot] clicks a box. *)
Definition click_point (b : box) : Z * Z :=
  let '(x, y, w, h) := b in
  let click_x := x + w / 2 in
  let click_y := y + h / 2 in
  (click_x, click_y).

(** [click_box]: the screen point of the [mouseDown] and [mouseUp] pair. *)
Definition click_box (box_x box_y : Z) (reg : region) : Z * Z :=
  let screen_x := left reg + box_x in
  let screen_y := top reg + box_y in
  (screen_x, screen_y).

(** A dispatched click: the clock reading [current_time] of its iteration,
    the box and the screen point. *)
Record click : Type := { at_time : R; target : box; screen : Z * Z }.

(** The locals of [run_bot] that the click logic uses, and the clicks
    dispatched so far, newest first. *)
Record locals : Type := {
  total_clicks : Z;
  last_click_time : R;
  clicks : list click
}.

(** What one iteration observes: [time.time()] and the detected boxes. *)
Record observation : Type := { current_time : R; red_boxes : list box }.

(** The click part of the loop body. *)
Definition iteration (reg : region) (click_delay : R) (o : observation) (s : locals)
  : locals :=
  if negb (Nat.eqb (length (red_boxes o)) 0)
     && Rgeb (current_time o - last_click_time s) click_delay
  then
    match first_box (red_boxes o) with
    | Some b =>
        let '(click_x, click_y) := click_point b in
        {| total_clicks := total_clicks s + 1;
           last_click_time := current_time o;
           clicks := {| at_time := current_time o; target := b;
                        screen := click_box click_x click_y reg |} :: clicks s |}
    | None => s      (* not reached: the sorted list is not empty *)
    end
  else s.

(** The [while not emergency_stop] loop over the iterations that ran. *)
Fixpoint loop (reg : region) (click_delay : R) (obs : list observation) (s : locals)
  : locals :=
  match obs with
  | [] => s
  | o :: obs' => loop reg click_delay obs' (iteration reg click_delay o s)
  end.

Definition run_bot (reg : region) (click_delay : R) (obs : list observation) : locals :=
  loop reg click_delay obs {| total_clicks := 0; last_click_time := 0; clicks := [] |}.

End ShooterBot.

(** ** rocket_bot.py: the game region *)

Module RocketSetup.
Import RocketBot RocketRun.

(** [max(contours, key=cv2.contourArea)]: the loop of [max] over the rest
    of a non-empty list; a later contour replaces the best one only when
    its area is strictly larger. *)
Fixpoint largest_loop (best : contour) (rest : list contour) : contour :=
  match rest with
  | [] => best
  | c :: rest' =>
      if Rltb (contourArea best) (contourArea c) then largest_loop c rest'
      else largest_loop best rest'
  end.

Definition with_game_region (r : option region) (s : bot) : bot :=
  {| game_region := r; rocket_pos := rocket_pos s; running := running s;
     mouse_pressed := mouse_pressed s; emergency_stop := emergency_stop s;
     pointer := pointer s |}.

(** [find_game_window], given the contours of the teal mask of the
    screenshot: the returned boolean and [self] after the call. *)
Definition find_game_window (contours : list contour) (s : bot) : bool * bot :=
  match contours with
  | [] => (false, s)
  | c :: rest =>
      let largest := largest_loop c rest in
      let '(x, y, w, h) := boundingRect largest in
      (true,
       with_game_region
         (Some {| left := x; top := y; width := w;
                  height := np_int (IZR w * 1.8) |}) s)
  end.

(** [set_game_region(left, top, width, height)] *)
Definition set_game_region (l t w h : Z) (s : bot) : bot :=
  with_game_region (Some {| left := l; top := t; width := w; height := h |}) s.

(** The number of presses and of releases in a pointer log. *)
Fixpoint presses (log : list pointer_op) : nat :=
  match log with
  | [] => 0
  | MouseDown :: older => S (presses older)
  | _ :: older => presses older
  end.

Fixpoint releases (log : list pointer_op) : nat :=
  match log with
  | [] => 0
  | MouseUp :: older => S (releases older)
  | _ :: older => releases older
  end.

(** From a state with the property [I], a computation that completes
    re-establishes [I], and one that raises leaves a state with the
    property [E]. *)
Definition keeps {A : Type} (I E : bot -> Prop) (m : M A) : Prop :=
  forall s, I s -> match m s with
                   | (Ok _, s') => I s'
                   | (Raise _, s') => E s'
                   end.

(** Nothing was released, and the button was pressed once if the flag is
    set and never otherwise. *)
Definition pressed_once (s : bot) : Prop :=
  releases (pointer s) = 0%nat
  /\ presses (pointer s) = if mouse_pressed s then 1%nat else 0%nat.

(** What is left of [pressed_once] when an iteration raises: the press may
    have been sent without the flag being set. *)
Definition pressed_at_most_once (s : bot) : Prop :=
  releases (pointer s) = 0%nat
  /\ (presses (pointer s) <= 1)%nat
  /\ (mouse_pressed s = true -> presses (pointer s) = 1%nat).

(** No call of the tick raises between the press and the assignment of
    the flag. *)
Definition press_completes (t : tick) : Prop :=
  forall e, raised t <> Some (e, AfterPress).

End RocketSetup.

(** ** shooter_bot.py: find_red_boxes *)

Module ShooterVision.
Import ShooterBot.

(** A contour of the red mask, as OpenCV measures it. *)
Record contour : Type := {
  contourArea : R;                 (* cv2.contourArea(contour) *)
  boundingRect : Z * Z * Z * Z;    (* cv2.boundingRect(contour) = (x, y, w, h) *)
  approx_len : nat                 (* len(cv2.approxPolyDP(contour,
                                      0.02 * cv2.arcLength(contour, True), True)) *)
}.

(** The list [red_boxes] that [find_red_boxes] returns (the mask it
    returns beside it in debug mode is an image and is left out). *)
Fixpoint find_red_boxes (contours : list contour) : list box :=
  match contours with
  | [] => []
  | contour :: rest =>
      let area := contourArea contour in
      if Rltb 100 area && Rltb area 5000 then
        let '(x, y, w, h) := boundingRect contour in
        let aspect_ratio := if 0 <? h then (IZR w / IZR h)%R else 0%R in
        if Rltb 0.8 aspect_ratio && Rltb aspect_ratio 1.2 then
          if Nat.eqb (approx_len contour) 4 then (x, y, w, h) :: find_red_boxes rest
          else find_red_boxes rest
        else find_red_boxes rest
      else find_red_boxes rest
  end.

End ShooterVision.

(** ** shooter_bot.py: click_box and the loop of run_bot with its calls

    As for the steering bot, a [tick] scripts one iteration: what it
    observes, whether ESC is pressed, and whether one of its calls raises
    (before having an effect).  The preparation before the [try] (the
    three seconds of sleep, the screen capture object, the debug window)
    and the frame rate counters are left out. *)

Module ShooterRun.
Import ShooterBot.

(** [pyautogui.mouseDown(x, y)] and [pyautogui.mouseUp()] *)
Inductive pointer_op : Type :=
| MouseDownAt (x y : Z)
| MouseUp.

Definition button_down (log : list pointer_op) : bool :=
  match log with
  | [] => false
  | MouseDownAt _ _ :: _ => true
  | MouseUp :: _ => false
  end.

(** The locals of [run_bot], the global [emergency_stop], and the pointer
    operations performed so far, newest first. *)
Record state : Type := {
  total_clicks : Z;
  last_click_time : R;
  emergency_stop : bool;
  pointer : list pointer_op
}.

Inductive exn : Type :=
| KeyboardInterrupt
| OtherException.

Inductive site : Type :=
| Grab | FindRedBoxes | PressAt | HoldSleep | Release | DebugWindow | IdleSleep.

Definition site_eqb (a b : site) : bool :=
  match a, b with
  | Grab, Grab | FindRedBoxes, FindRedBoxes | PressAt, PressAt
  | HoldSleep, HoldSleep | Release, Release | DebugWindow, DebugWindow
  | IdleSleep, IdleSleep => true
  | _, _ => false
  end.

Record tick : Type := {
  seen : observation;              (* [time.time()] and the boxes found *)
  esc_key : bool;                  (* ESC is pressed: [on_press] runs *)
  raised : option (exn * site)     (* a call of this iteration raises *)
}.

Inductive outcome (A : Type) : Type :=
| Ok (a : A)
| Raise (e : exn).
Arguments Ok {A} a.
Arguments Raise {A} e.

Definition M (A : Type) : Type := state -> outcome A * state.

Definition ret {A : Type} (a : A) : M A := fun s => (Ok a, s).

Definition bind {A B : Type} (m : M A) (f : A -> M B) : M B :=
  fun s => match m s with
           | (Ok a, s') => f a s'
           | (Raise e, s') => (Raise e, s')
           end.

Definition modify (f : state -> state) : M unit := fun s => (Ok tt, f s).

Definition throw {A : Type} (e : exn) : M A := fun s => (Raise e, s).

Notation "x <- m ;; f" := (bind m (fun x => f))
  (at level 61, m at next level, right associativity).
Notation "m ;; f" := (bind m (fun _ => f))
  (at level 61, right associativity).

Definition call (t : tick) (here : site) : M unit :=
  match raised t with
  | Some (e, s) => if site_eqb s here then throw e else ret tt
  | None => ret tt
  end.

Definition do_pointer (op : pointer_op) (s : state) : state :=
  {| total_clicks := total_clicks s; last_click_time := last_click_time s;
     emergency_stop := emergency_stop s; pointer := op :: pointer s |}.

(** [total_clicks += 1] and [last_click_time = current_time] *)
Definition count_click (current_time : R) (s : state) : state :=
  {| total_clicks := total_clicks s + 1; last_click_time := current_time;
     emergency_stop := emergency_stop s; pointer := pointer s |}.

(** [on_press] for ESC, run by the listener thread. *)
Definition on_press (s : state) : state :=
  {| total_clicks := total_clicks s; last_click_time := last_click_time s;
     emergency_stop := true; pointer := pointer s |}.

(** [click_box(box_x, box_y, region)] *)
Definition click_box (t : tick) (box_x box_y : Z) (reg : region) : M unit :=
  let screen_x := left reg + box_x in
  let screen_y := top reg + box_y in
  call t PressAt ;;
  modify (do_pointer (MouseDownAt screen_x screen_y)) ;;
  call t HoldSleep ;;
  call t Release ;;
  modify (do_pointer MouseUp).

(** The body of the [while] loop of [run_bot]. *)
Definition iteration (reg : region) (debug : bool) (click_delay : R) (t : tick)
  : M unit :=
  call t Grab ;;
  call t FindRedBoxes ;;
  let boxes := red_boxes (seen t) in
  let now := current_time (seen t) in
  last <- (fun s => (Ok (last_click_time s), s)) ;;
  (if negb (Nat.eqb (length boxes) 0) && Rgeb (now - last) click_delay then
     match first_box boxes with
     | Some b =>
         let '(click_x, click_y) := click_point b in
         click_box t click_x click_y reg ;;
         modify (count_click now)
     | None => ret tt      (* not reached: the sorted list is not empty *)
     end
   else ret tt) ;;
  if debug then call t DebugWindow else call t IdleSleep.

Inductive loop_exit : Type :=
| Stopped                  (* [emergency_stop] is set *)
| Raised (e : exn).

(** The [while not emergency_stop] loop over the scripted iterations;
    [None] when the script ends with the loop still running. *)
Fixpoint loop (reg : region) (debug : bool) (click_delay : R)
         (ticks : list tick) (s : state) : option loop_exit * state :=
  if emergency_stop s then (Some Stopped, s)
  else
    match ticks with
    | [] => (None, s)
    | t :: ticks' =>
        let s := if esc_key t then on_press s else s in
        match iteration reg debug click_delay t s with
        | (Ok _, s') => loop reg debug click_delay ticks' s'
        | (Raise e, s') => (Some (Raised e), s')
        end
    end.

Inductive run_exit : Type :=
| Returned (how : loop_exit)
| Propagated (e : exn).

(** The locals at the start of [run_bot]; [stop] is the global flag. *)
Definition start (stop : bool) : state :=
  {| total_clicks := 0; last_click_time := 0; emergency_stop := stop; pointer := [] |}.

(** [run_bot]: the [try] with [except KeyboardInterrupt] and a [finally]
    that only prints and closes the debug windows. *)
Definition run_bot (reg : region) (debug : bool) (click_delay : R)
           (ticks : list tick) (stop : bool) : option run_exit * state :=
  match loop reg debug click_delay ticks (start stop) with
  | (None, s') => (None, s')
  | (Some (Raised OtherException), s') => (Some (Propagated OtherException), s')
  | (Some how, s') => (Some (Returned how), s')
  end.

End ShooterRun.

(** ** The two models of the click loop side by side *)

Module ShooterTrace.
Import ShooterBot.

(** The pointer operations of a log of clicks, newest first: every click
    is a press at its screen point and then a release. *)
Definition ops_of_clicks (log : list click) : list ShooterRun.pointer_op :=
  flat_map (fun c => [ShooterRun.MouseUp;
                      ShooterRun.MouseDownAt (fst (screen c)) (snd (screen c))]) log.

(** A tick in which no call raises and ESC is not pressed. *)
Definition quiet (t : ShooterRun.tick) : Prop :=
  ShooterRun.raised t = None /\ ShooterRun.esc_key t = false.

(** The state of [ShooterRun] for the locals of [ShooterBot], while the
    loop is running. *)
Definition state_of (s : locals) : ShooterRun.state :=
  {| ShooterRun.total_clicks := total_clicks s;
     ShooterRun.last_click_time := last_click_time s;
     ShooterRun.emergency_stop := false;
     ShooterRun.pointer := ops_of_clicks (clicks s) |}.

(** A red square of 21 by 21 pixels at (10, 10), and the locals before
    the first iteration. *)
Definition red_square : ShooterVision.contour :=
  {| ShooterVision.contourArea := 400;
     ShooterVision.boundingRect := (10, 10, 21, 21);
     ShooterVision.approx_len := 4 |}.

Definition fresh : locals :=
  {| total_clicks := 0; last_click_time := 0; clicks := [] |}.

(** An iteration of the click bot at clock reading 1 that sees the boxes
    (10,10,20,20) and (5,50,20,20), quiet or with its hold interrupted. *)
Definition seen_boxes : observation :=
  {| current_time := 1; red_boxes := [(10, 10, 20, 20); (5, 50, 20, 20)] |}.

Definition quiet_tick : ShooterRun.tick :=
  {| ShooterRun.seen := seen_boxes; ShooterRun.esc_key := false;
     ShooterRun.raised := None |}.

Definition held_tick : ShooterRun.tick :=
  {| ShooterRun.seen := seen_boxes; ShooterRun.esc_key := false;
     ShooterRun.raised := Some (ShooterRun.KeyboardInterrupt, ShooterRun.HoldSleep) |}.

(** An iteration during which ESC is pressed: it still sees the boxes and
    completes, and the loop ends after it. *)
Definition esc_tick : ShooterRun.tick :=
  {| ShooterRun.seen := seen_boxes; ShooterRun.esc_key := true;
     ShooterRun.raised := None |}.

End ShooterTrace.

(** ** The notions the specification uses *)

Module Spec.
Import RocketBot.

(** The Euclidean distance between the pixels [(x, y)] and [(dx, dy)]. *)
Definition euclid (x y dx dy : Z) : R :=
  sqrt ((IZR x - IZR dx) ^ 2 + (IZR y - IZR dy) ^ 2).

(** A point lies strictly inside a zone. *)
Definition inside (x y : Z) (z : zone) : Prop :=
  let '(dx, dy, radius) := z in (euclid x y dx dy < radius)%R.

(** The cumulative danger score of the point [(x, y)]: the sum over the
    zones of [max(0, radius * 2 - distance)]. *)
Fixpoint danger_score (zones : list zone) (x y : Z) : R :=
  match zones with
  | [] => 0
  | (dx, dy, radius) :: rest =>
      (Rmax 0 (radius * 2 - euclid x y dx dy) + danger_score rest x y)%R
  end.

(** The horizontal positions of the fallback scan: from 50, in strides of
    20, strictly left of [frame_width - 50]. *)
Definition scanned (frame_width x : Z) : Prop :=
  exists k, 0 <= k /\ x = 50 + 20 * k /\ x < frame_width - 50.

(** Box [a] is above box [b], or on the same row and not right of it. *)
Definition above_or_left (a b : ShooterBot.box) : Prop :=
  let '(ax, ay, _, _) := a in
  let '(bx, by_, _, _) := b in
  ay < by_ \/ (ay = by_ /\ ax <= bx).

(** Box [a] is above box [b], or on the same row and strictly left of it. *)
Definition strictly_above_or_left (a b : ShooterBot.box) : Prop :=
  let '(ax, ay, _, _) := a in
  let '(bx, by_, _, _) := b in
  ay < by_ \/ (ay = by_ /\ ax < bx).

(** The clock reading of the newest click of a log, and 0, the initial
    [last_click_time], when nothing was clicked yet. *)
Definition newest_time (log : list ShooterBot.click) : R :=
  match log with
  | [] => 0
  | c :: _ => ShooterBot.at_time c
  end.

(** Every click of the log, newest first, comes at least [click_delay]
    after the click before it. *)
Fixpoint spaced (click_delay : R) (log : list ShooterBot.click) : Prop :=
  match log with
  | [] => True
  | c :: older =>
      (click_delay <= ShooterBot.at_time c - newest_time older)%R
      /\ spaced click_delay older
  end.

(** A contour that [find_rocket] accepts: its area is strictly between
    500 and 10000 and its moment m00 is positive. *)
Definition rocket_like (c : contour) : Prop :=
  (500 < contourArea c < 10000)%R /\ (0 < m00 c)%R.

Definition rocket_likeb (c : contour) : bool :=
  Rltb 500 (contourArea c) && Rltb (contourArea c) 10000 && Rltb 0 (m00 c).

(** The aspect test [lo < w / h < hi] of the detectors, on integers, for
    the bounds 1/2 and 2 of [find_items] ... *)
Definition roughly_square (w h : Z) : bool :=
  (0 <? h) && (h <? 2 * w) && (w <? 2 * h).

(** ... and for the bounds 0.8 and 1.2 of [find_red_boxes]. *)
Definition nearly_square (w h : Z) : bool :=
  (0 <? h) && (4 * h <? 5 * w) && (5 * w <? 6 * h).

End Spec.

(** ** Integer deciders

    The distance tests of [is_safe] compare the square root of an integer
    with one and a half times an integer, and the sample points are
    quarters of integers cut to integers: both are decided in [Z].  The
    deciders below compute; they are proved equal to the functions of
    [RocketBot] on the zones that [danger_zones] builds. *)

Module Exact.
Import RocketBot.

(** [sqrt d2 < r * 1.5], for the squared distance [d2]. *)
Definition within (d2 r : Z) : bool := (0 <? r) && (4 * d2 <? 9 * (r * r)).

Fixpoint is_safe_z (fireballs : list fireball) (x y : Z) : bool :=
  match fireballs with
  | [] => true
  | fb :: rest =>
      let '(dx, dy) := center fb in
      if within ((x - dx) ^ 2 + (y - dy) ^ 2) (danger_radius fb) then false
      else is_safe_z rest x y
  end.

(** The sample point for t = k / 4. *)
Definition sample_z (rx ry ix iy k : Z) : Z * Z :=
  (Z.quot (4 * rx + k * (ix - rx)) 4, Z.quot (4 * ry + k * (iy - ry)) 4).

Definition path_safe_z (fireballs : list fireball) (rx ry ix iy : Z) : bool :=
  forallb (fun k => let '(px, py) := sample_z rx ry ix iy k in is_safe_z fireballs px py)
          [0; 1; 2; 3; 4].

End Exact.

(** ** Concrete scenes *)

Module Scenario.
Import RocketBot.

(** One fireball whose bounding box is [(105, 80, 40, 40)], as
    [find_fireballs] records it: centre (125, 100), danger radius 40. *)
Definition hazard : list fireball :=
  [{| center := (125, 100); bounds := (105, 80, 40, 40); danger_radius := 40 |}].

(** Three fireballs as [find_fireballs] records them, placed symmetrically
    about the column 190: two of 68 by 68 pixels centred at (130, 640) and
    (250, 640), and between them in the list one of 145 by 145 pixels
    centred at (190, 391). *)
Definition three_fireballs : list fireball :=
  [{| center := (130, 640); bounds := (96, 606, 68, 68); danger_radius := 68 |};
   {| center := (190, 391); bounds := (118, 319, 145, 145); danger_radius := 145 |};
   {| center := (250, 640); bounds := (216, 606, 68, 68); danger_radius := 68 |}].

(** The contour of the right triangle with corners (0, 0), (90, 0) and
    (0, 90): area 4050, bounding box 91 by 91 pixels, centre of mass
    (30, 30), hence m10 = m01 = 30 * 4050. *)
Definition triangle : contour :=
  {| contourArea := 4050; m00 := 4050; m10 := 121500; m01 := 121500;
     boundingRect := (0, 0, 91, 91) |}.

(** Three iterations of the click bot, at clock readings 1, 1.2 and 1.6,
    each detecting the boxes (10,10,20,20) and (5,50,20,20). *)
Definition capture : ShooterBot.region :=
  {| ShooterBot.left := 300; ShooterBot.top := 200;
     ShooterBot.width := 400; ShooterBot.height := 600 |}.

Definition three_frames : list ShooterBot.observation :=
  [{| ShooterBot.current_time := 1;
      ShooterBot.red_boxes := [(10, 10, 20, 20); (5, 50, 20, 20)] |};
   {| ShooterBot.current_time := 1.2;
      ShooterBot.red_boxes := [(10, 10, 20, 20); (5, 50, 20, 20)] |};
   {| ShooterBot.current_time := 1.6;
      ShooterBot.red_boxes := [(10, 10, 20, 20); (5, 50, 20, 20)] |}].

(** A frame of the steering bot that shows the triangle as the rocket and
    nothing else, the capture region, and two iterations on that frame:
    one that completes and one in which the final sleep is interrupted. *)
Definition rocket_frame : RocketRun.frame :=
  {| RocketRun.purple := [triangle]; RocketRun.white := [];
     RocketRun.orange := []; RocketRun.shape1 := 130 |}.

Definition game : RocketRun.region :=
  {| RocketRun.left := 300; RocketRun.top := 200;
     RocketRun.width := 130; RocketRun.height := 234 |}.

Definition quiet_tick : RocketRun.tick :=
  {| RocketRun.grabbed := rocket_frame; RocketRun.stop_key := false;
     RocketRun.quit_key := false; RocketRun.raised := None |}.

Definition interrupted_tick : RocketRun.tick :=
  {| RocketRun.grabbed := rocket_frame; RocketRun.stop_key := false;
     RocketRun.quit_key := false;
     RocketRun.raised := Some (RocketRun.KeyboardInterrupt, RocketRun.FpsSleep) |}.

Definition stop_tick : RocketRun.tick :=
  {| RocketRun.grabbed := rocket_frame; RocketRun.stop_key := true;
     RocketRun.quit_key := false; RocketRun.raised := None |}.

(** An iteration on a frame that shows nothing. *)
Definition blank_tick : RocketRun.tick :=
  {| RocketRun.grabbed :=
       {| RocketRun.purple := []; RocketRun.white := [];
          RocketRun.orange := []; RocketRun.shape1 := 130 |};
     RocketRun.stop_key := false; RocketRun.quit_key := false;
     RocketRun.raised := None |}.

(** An iteration with the pointer in a corner of the screen: the drag
    raises the fail-safe exception of pyautogui. *)
Definition failing_tick : RocketRun.tick :=
  {| RocketRun.grabbed := rocket_frame; RocketRun.stop_key := false;
     RocketRun.quit_key := false;
     RocketRun.raised := Some (RocketRun.OtherException, RocketRun.DragToTarget) |}.

(** An iteration in which an interrupt arrives right after the button went
    down. *)
Definition pressing_tick : RocketRun.tick :=
  {| RocketRun.grabbed := rocket_frame; RocketRun.stop_key := false;
     RocketRun.quit_key := false;
     RocketRun.raised := Some (RocketRun.KeyboardInterrupt, RocketRun.AfterPress) |}.

End Scenario.

(** * Properties *)

(** ** Facts on the numeric primitives *)

Lemma Rltb_true (x y : R) : Rltb x y = true <-> (x < y)%R.
Proof.
  unfold Rltb. destruct (Rlt_dec x y); split; intros; try easy.
Qed.

Lemma Rltb_false (x y : R) : Rltb x y = false <-> (y <= x)%R.
Proof.
  unfold Rltb. destruct (Rlt_dec x y); split; intros; try easy; lra.
Qed.

Lemma Rgeb_true (x y : R) : Rgeb x y = true <-> (y <= x)%R.
Proof.
  unfold Rgeb. destruct (Rge_dec x y); split; intros; try easy; lra.
Qed.

Lemma Rgeb_false (x y : R) : Rgeb x y = false <-> (x < y)%R.
Proof.
  unfold Rgeb. destruct (Rge_dec x y); split; intros; try easy; lra.
Qed.

Lemma Int_part_IZR (z : Z) : Int_part (IZR z) = z.
Proof.
  symmetry. apply Int_part_spec. split; lra.
Qed.

Lemma np_int_IZR (z : Z) : np_int (IZR z) = z.
Proof.
  unfold np_int. destruct (Rle_dec 0 (IZR z)).
  - apply Int_part_IZR.
  - rewrite <- opp_IZR, Int_part_IZR. lia.
Qed.


Lemma below_true (d : R) (s : score) :
  below d s = true <-> match s with Fin r => (d < r)%R | Inf => True end.
Proof.
  destruct s; simpl; [apply Rltb_true | tauto].
Qed.

Lemma below_false (d : R) (s : score) :
  below d s = false <-> match s with Fin r => (r <= d)%R | Inf => False end.
Proof.
  destruct s; simpl; [apply Rltb_false | split; [discriminate | tauto]].
Qed.

(** ** The planner of the steering bot *)

Import RocketBot Spec.

Lemma distance_euclid (x y dx dy : Z) : distance x y dx dy = euclid x y dx dy.
Proof.
  unfold distance, euclid, np_sqrt. f_equal.
  replace ((x - dx) ^ 2 + (y - dy) ^ 2)
    with ((x - dx) * (x - dx) + (y - dy) * (y - dy)) by ring.
  rewrite plus_IZR, !mult_IZR, !minus_IZR. ring.
Qed.

Lemma distance_nonneg (x y dx dy : Z) : (0 <= distance x y dx dy)%R.
Proof.
  unfold distance, np_sqrt. apply sqrt_pos.
Qed.

Lemma is_safe_false_exists (H : list zone) (x y : Z) :
  is_safe H x y = false <-> exists z, In z H /\ inside x y z.
Proof.
  induction H as [|[[dx dy] radius] rest IH]; simpl.
  - split; [discriminate | intros (z & [] & _)].
  - destruct (Rltb (distance x y dx dy) radius) eqn:E.
    + split; [intros _ | reflexivity].
      exists (dx, dy, radius). split; [now left|].
      simpl. rewrite <- distance_euclid. now apply Rltb_true.
    + rewrite IH. split.
      * intros (z & Hin & Hz). exists z. split; [now right | exact Hz].
      * intros (z & [Heq | Hin] & Hz).
        -- subst z. simpl in Hz. rewrite <- distance_euclid in Hz.
           apply Rltb_true in Hz. congruence.
        -- exists z. split; assumption.
Qed.

Lemma is_safe_true_forall (H : list zone) (x y : Z) :
  is_safe H x y = true <-> forall z, In z H -> ~ inside x y z.
Proof.
  split.
  - intros Hs z Hin Hz.
    assert (is_safe H x y = false) by (apply is_safe_false_exists; eauto).
    congruence.
  - intros Hall. destruct (is_safe H x y) eqn:E; [reflexivity|].
    apply is_safe_false_exists in E. destruct E as (z & Hin & Hz).
    exfalso. eapply Hall; eauto.
Qed.

(** C2.  [is_safe] answers false exactly when some danger zone has its
    centre at Euclidean distance strictly below its radius from the point; a
    point at distance exactly the radius of every zone that it does not
    clear is safe, so the boundary counts as safe. *)
Theorem is_safe_strict_radius (H : list zone) (x y : Z) :
  (is_safe H x y = false <->
   exists dx dy radius, In (dx, dy, radius) H /\ (euclid x y dx dy < radius)%R)
  /\ ((forall dx dy radius, In (dx, dy, radius) H -> (radius <= euclid x y dx dy)%R) ->
      is_safe H x y = true)
  /\ (forall dx dy radius, euclid x y dx dy = radius ->
      is_safe [(dx, dy, radius)] x y = true).
Proof.
  assert (A : (forall dx dy radius, In (dx, dy, radius) H ->
                 (radius <= euclid x y dx dy)%R) -> is_safe H x y = true).
  { intros Hall. apply is_safe_true_forall. intros [[dx dy] radius] Hin Hz.
    simpl in Hz. specialize (Hall _ _ _ Hin). lra. }
  split; [|split; [exact A|]].
  - rewrite is_safe_false_exists. split.
    + intros ([[dx dy] radius] & Hin & Hz). exists dx, dy, radius. now split.
    + intros (dx & dy & radius & Hin & Hz). exists (dx, dy, radius). now split.
  - intros dx dy radius Heq. apply is_safe_true_forall.
    intros z [<- | []] Hz. simpl in Hz. lra.
Qed.

Lemma euclid_axis (x y : Z) (d : Z) : 0 <= d -> euclid (x + d) y x y = IZR d.
Proof.
  intros Hd. unfold euclid. rewrite plus_IZR.
  replace ((IZR x + IZR d - IZR x) ^ 2 + (IZR y - IZR y) ^ 2)%R with (Rsqr (IZR d))
    by (unfold Rsqr; ring).
  apply sqrt_Rsqr. now apply IZR_le.
Qed.

Lemma is_safe_strict_radius_witness : is_safe [(0, 0, 3%R)] 3 0 = true.
Proof.
  apply (proj2 (proj2 (is_safe_strict_radius [(0, 0, 3%R)] 3 0)) 0 0 3%R).
  apply (euclid_axis 0 0 3). lia.
Defined.

Lemma path_loop_false (zones : list zone) (rx ry ix iy : Z) (ts : list R) :
  path_loop zones rx ry ix iy ts = false <->
  exists t, In t ts /\
            is_safe zones (fst (sample rx ry ix iy t)) (snd (sample rx ry ix iy t)) = false.
Proof.
  induction ts as [|t ts IH]; cbn [path_loop In].
  - split; [discriminate | intros (t & [] & _)].
  - unfold sample at 1. cbn [fst snd] in *.
    destruct (is_safe zones _ _) eqn:E; cbn [negb].
    + rewrite IH. split.
      * intros (u & Hin & Hu). exists u. split; [now right | exact Hu].
      * intros (u & [<- | Hin] & Hu).
        -- unfold sample in Hu. cbn [fst snd] in Hu. congruence.
        -- exists u. now split.
    + split; [intros _ | reflexivity].
      exists t. split; [now left|]. exact E.
Qed.

Lemma item_loop_skip (zones : list zone) (rx ry ix iy : Z) (area : R)
      (before after : list item) (bt : option (Z * Z)) (bs : score) :
  path_safe zones rx ry ix iy = false ->
  item_loop zones rx ry (before ++ (ix, iy, area) :: after) bt bs
  = item_loop zones rx ry (before ++ after) bt bs.
Proof.
  intros Hp. revert bt bs.
  induction before as [|[[jx jy] a] before IH]; intros bt bs; simpl.
  - now rewrite Hp.
  - destruct (path_safe zones rx ry jx jy); [|apply IH].
    destruct (below (distance jx jy rx ry) bs); apply IH.
Qed.

(** C3.  When one of the five points computed for t = 0, 0.25, 0.5, 0.75, 1
    on the segment from the rocket to an item is unsafe, the item is not
    path-safe, and [calculate_safe_move] returns what it returns on the
    item list without that item: the item is never the selected one. *)
Theorem unsafe_sample_rejects_item
        (rx ry ix iy : Z) (area : R) (before after : list item)
        (fireballs : list fireball) (frame_width : Z) (t : R) :
  In t [0; 0.25; 0.5; 0.75; 1]%R ->
  is_safe (danger_zones fireballs)
          (np_int (IZR rx + t * IZR (ix - rx)))
          (np_int (IZR ry + t * IZR (iy - ry))) = false ->
  path_safe (danger_zones fireballs) rx ry ix iy = false
  /\ calculate_safe_move (Some (rx, ry)) (before ++ (ix, iy, area) :: after)
                         fireballs frame_width
     = calculate_safe_move (Some (rx, ry)) (before ++ after) fireballs frame_width.
Proof.
  intros Hin Hun.
  assert (Hp : path_safe (danger_zones fireballs) rx ry ix iy = false).
  { apply path_loop_false. exists t. split; [exact Hin | exact Hun]. }
  split; [exact Hp|].
  unfold calculate_safe_move. now rewrite item_loop_skip.
Qed.

Lemma sample_start (rx ry ix iy : Z) : sample rx ry ix iy 0 = (rx, ry).
Proof.
  unfold sample. rewrite !Rmult_0_l, !Rplus_0_r, !np_int_IZR. reflexivity.
Qed.

Lemma item_loop_none (zones : list zone) (rx ry : Z) (items : list item)
      (bt : option (Z * Z)) (bs : score) :
  (forall ix iy area, In (ix, iy, area) items -> path_safe zones rx ry ix iy = false) ->
  item_loop zones rx ry items bt bs = (bt, bs).
Proof.
  revert bt bs. induction items as [|[[ix iy] a] items IH]; intros bt bs Hall; simpl.
  - reflexivity.
  - rewrite (Hall ix iy a) by now left.
    apply IH. intros jx jy b Hin. apply (Hall jx jy b). now right.
Qed.

(** C10.  When the rocket itself lies strictly inside a danger zone, no
    item is path-safe (the point computed for t = 0 is the rocket position),
    the item loop selects nothing and [calculate_safe_move] returns the
    result of the horizontal scan. *)
Theorem rocket_in_zone_takes_fallback
        (rx ry : Z) (items : list item) (fireballs : list fireball) (frame_width : Z) :
  (exists dx dy radius,
      In (dx, dy, radius) (danger_zones fireballs) /\ (euclid rx ry dx dy < radius)%R) ->
  (forall ix iy, sample rx ry ix iy 0 = (rx, ry)
                 /\ path_safe (danger_zones fireballs) rx ry ix iy = false)
  /\ fst (item_loop (danger_zones fireballs) rx ry items None Inf) = None
  /\ calculate_safe_move (Some (rx, ry)) items fireballs frame_width
     = Some (fst (scan_loop (danger_zones fireballs) ry
                            (scan_positions frame_width) rx Inf), ry).
Proof.
  intros Hz.
  assert (Hun : is_safe (danger_zones fireballs) rx ry = false).
  { apply is_safe_false_exists. destruct Hz as (dx & dy & radius & Hin & Hlt).
    exists (dx, dy, radius). split; [exact Hin | exact Hlt]. }
  assert (Hp : forall ix iy, path_safe (danger_zones fireballs) rx ry ix iy = false).
  { intros ix iy. apply path_loop_false. exists 0%R. split; [now left|].
    rewrite sample_start. exact Hun. }
  assert (Hl : item_loop (danger_zones fireballs) rx ry items None Inf = (None, Inf)).
  { apply item_loop_none. intros ix iy _ _. apply Hp. }
  split; [|split].
  - intros ix iy. split; [apply sample_start | apply Hp].
  - now rewrite Hl.
  - unfold calculate_safe_move. now rewrite Hl.
Qed.

Lemma np_int_eq (r : R) (z : Z) : r = IZR z -> np_int r = z.
Proof.
  intros ->. apply np_int_IZR.
Qed.

Lemma unsafe_sample_rejects_item_witness :
  In 0.5%R [0; 0.25; 0.5; 0.75; 1]%R
  /\ is_safe (danger_zones Scenario.hazard)
             (np_int (IZR 100 + 0.5 * IZR (150 - 100)))
             (np_int (IZR 100 + 0.5 * IZR (100 - 100))) = false
  /\ path_safe (danger_zones Scenario.hazard) 100 100 150 100 = false
  /\ calculate_safe_move (Some (100, 100)) ([] ++ (150, 100, 2500%R) :: [])
                         Scenario.hazard 400
     = calculate_safe_move (Some (100, 100)) ([] ++ []) Scenario.hazard 400.
Proof.
  assert (H1 : In 0.5%R [0; 0.25; 0.5; 0.75; 1]%R) by (simpl; tauto).
  assert (H2 : is_safe (danger_zones Scenario.hazard)
                       (np_int (IZR 100 + 0.5 * IZR (150 - 100)))
                       (np_int (IZR 100 + 0.5 * IZR (100 - 100))) = false).
  { rewrite (np_int_eq _ 125) by (simpl; lra).
    rewrite (np_int_eq _ 100) by (simpl; lra).
    apply is_safe_false_exists. exists (125, 100, (IZR 40 * 1.5)%R).
    split; [now left|]. unfold inside.
    assert (E : euclid 125 100 125 100 = 0%R) by (apply (euclid_axis 125 100 0); lia).
    rewrite E. lra. }
  split; [exact H1 | split; [exact H2|]].
  exact (unsafe_sample_rejects_item 100 100 150 100 2500%R [] [] Scenario.hazard 400 0.5%R H1 H2).
Defined.

Lemma rocket_in_zone_takes_fallback_witness :
  (exists dx dy radius,
      In (dx, dy, radius) (danger_zones Scenario.hazard) /\ (euclid 125 100 dx dy < radius)%R)
  /\ fst (item_loop (danger_zones Scenario.hazard) 125 100 [(150, 100, 2500%R)] None Inf) = None.
Proof.
  assert (H : exists dx dy radius,
             In (dx, dy, radius) (danger_zones Scenario.hazard)
             /\ (euclid 125 100 dx dy < radius)%R).
  { exists 125, 100, (IZR 40 * 1.5)%R. split; [now left|].
    assert (E : euclid 125 100 125 100 = 0%R) by (apply (euclid_axis 125 100 0); lia).
    rewrite E. lra. }
  split; [exact H|].
  exact (proj1 (proj2 (rocket_in_zone_takes_fallback
                         125 100 [(150, 100, 2500%R)] Scenario.hazard 400 H))).
Defined.

Lemma below_trans (a b : R) (s : score) :
  below a (Fin b) = true -> below b s = true -> below a s = true.
Proof.
  rewrite !below_true. destruct s; [lra | tauto].
Qed.

Lemma below_lt (a b : R) (s : score) :
  below a s = true -> below b s = false -> (a < b)%R.
Proof.
  rewrite below_true, below_false. destruct s; [lra | tauto].
Qed.

(** What the item loop computes from any starting [best_target] and
    [best_score]: either no path-safe item is below the starting score and
    the pair is unchanged, or the result is a path-safe item that is
    strictly closer than the path-safe items before it and at least as
    close as those after it. *)
Lemma item_loop_spec (zones : list zone) (rx ry : Z) (items : list item) :
  forall bt bs,
    (item_loop zones rx ry items bt bs = (bt, bs)
     /\ forall jx jy a, In (jx, jy, a) items -> path_safe zones rx ry jx jy = true ->
                        below (distance jx jy rx ry) bs = false)
    \/ (exists before ix iy area after,
           items = before ++ (ix, iy, area) :: after
           /\ path_safe zones rx ry ix iy = true
           /\ item_loop zones rx ry items bt bs
              = (Some (ix, iy), Fin (distance ix iy rx ry))
           /\ below (distance ix iy rx ry) bs = true
           /\ (forall jx jy a, In (jx, jy, a) before ->
                               path_safe zones rx ry jx jy = true ->
                               (distance ix iy rx ry < distance jx jy rx ry)%R)
           /\ (forall jx jy a, In (jx, jy, a) after ->
                               path_safe zones rx ry jx jy = true ->
                               (distance ix iy rx ry <= distance jx jy rx ry)%R)).
Proof.
  induction items as [|[[kx ky] ka] items IH]; intros bt bs.
  - left. split; [reflexivity | intros ? ? ? []].
  - cbn [item_loop].
    destruct (path_safe zones rx ry kx ky) eqn:Hp.
    + destruct (below (distance kx ky rx ry) bs) eqn:Hb.
      * right.
        destruct (IH (Some (kx, ky)) (Fin (distance kx ky rx ry)))
          as [[Heq Hall] | (before & ix & iy & area & after & Hsplit & Hpi & Heq & Hbi & Hbef & Haft)].
        -- exists [], kx, ky, ka, items. repeat split; try assumption.
           ++ intros ? ? ? [].
           ++ intros jx jy a Hin Hpj. specialize (Hall jx jy a Hin Hpj).
              now apply below_false in Hall.
        -- exists ((kx, ky, ka) :: before), ix, iy, area, after.
           repeat split; try assumption.
           ++ now rewrite Hsplit.
           ++ eapply below_trans; eassumption.
           ++ intros jx jy a [Hj | Hin] Hpj.
              ** inversion Hj; subst. now apply below_true in Hbi.
              ** eapply Hbef; eassumption.
      * destruct (IH bt bs)
          as [[Heq Hall] | (before & ix & iy & area & after & Hsplit & Hpi & Heq & Hbi & Hbef & Haft)].
        -- left. split; [assumption|].
           intros jx jy a [Hj | Hin] Hpj.
           ++ inversion Hj; subst. assumption.
           ++ eapply Hall; eassumption.
        -- right. exists ((kx, ky, ka) :: before), ix, iy, area, after.
           repeat split; try assumption.
           ++ now rewrite Hsplit.
           ++ intros jx jy a [Hj | Hin] Hpj.
              ** inversion Hj; subst. eapply below_lt; eassumption.
              ** eapply Hbef; eassumption.
    + destruct (IH bt bs)
        as [[Heq Hall] | (before & ix & iy & area & after & Hsplit & Hpi & Heq & Hbi & Hbef & Haft)].
      * left. split; [assumption|].
        intros jx jy a [Hj | Hin] Hpj.
        -- inversion Hj; subst. congruence.
        -- eapply Hall; eassumption.
      * right. exists ((kx, ky, ka) :: before), ix, iy, area, after.
        repeat split; try assumption.
        -- now rewrite Hsplit.
        -- intros jx jy a [Hj | Hin] Hpj.
           ++ inversion Hj; subst. congruence.
           ++ eapply Hbef; eassumption.
Qed.

(** C4.  When some item is path-safe, [calculate_safe_move] returns the
    centroid of a path-safe item whose Euclidean distance to the rocket is
    strictly smaller than that of every path-safe item before it in the
    list and at most that of every path-safe item after it: the closest
    path-safe item, the earliest one among equally close ones. *)
Theorem closest_path_safe_item_selected
        (rx ry : Z) (items : list item) (fireballs : list fireball) (frame_width : Z) :
  (exists ix iy area, In (ix, iy, area) items
                      /\ path_safe (danger_zones fireballs) rx ry ix iy = true) ->
  exists before ix iy area after,
    items = before ++ (ix, iy, area) :: after
    /\ path_safe (danger_zones fireballs) rx ry ix iy = true
    /\ calculate_safe_move (Some (rx, ry)) items fireballs frame_width = Some (ix, iy)
    /\ (forall jx jy a, In (jx, jy, a) before ->
                        path_safe (danger_zones fireballs) rx ry jx jy = true ->
                        (euclid ix iy rx ry < euclid jx jy rx ry)%R)
    /\ (forall jx jy a, In (jx, jy, a) after ->
                        path_safe (danger_zones fireballs) rx ry jx jy = true ->
                        (euclid ix iy rx ry <= euclid jx jy rx ry)%R).
Proof.
  intros (kx & ky & ka & Hin & Hp).
  destruct (item_loop_spec (danger_zones fireballs) rx ry items None Inf)
    as [[_ Hall] | (before & ix & iy & area & after & Hsplit & Hpi & Heq & _ & Hbef & Haft)].
  - specialize (Hall kx ky ka Hin Hp). discriminate.
  - exists before, ix, iy, area, after. repeat split; try assumption.
    + unfold calculate_safe_move. now rewrite Heq.
    + intros jx jy a Hj Hpj. rewrite <- !distance_euclid. eapply Hbef; eassumption.
    + intros jx jy a Hj Hpj. rewrite <- !distance_euclid. eapply Haft; eassumption.
Qed.

Lemma closest_path_safe_item_selected_witness :
  (exists ix iy area, In (ix, iy, area) [(150, 100, 2500%R)]
                      /\ path_safe (danger_zones []) 100 100 ix iy = true)
  /\ calculate_safe_move (Some (100, 100)) [(150, 100, 2500%R)] [] 400 = Some (150, 100).
Proof.
  assert (H : exists ix iy area, In (ix, iy, area) [(150, 100, 2500%R)]
                                 /\ path_safe (danger_zones []) 100 100 ix iy = true).
  { exists 150, 100, 2500%R. split; [now left | reflexivity]. }
  split; [exact H|].
  destruct (closest_path_safe_item_selected 100 100 [(150, 100, 2500%R)] [] 400 H)
    as (before & ix & iy & area & after & Hsplit & _ & Heq & _).
  destruct before as [|b [|b' before]]; try discriminate Hsplit.
  inversion Hsplit; subst. exact Heq.
Defined.

(** *** The fallback scan *)

Lemma danger_loop_spec (zones : list zone) (x ry : Z) (acc : R) :
  danger_loop zones x ry acc = (acc + danger_score zones x ry)%R.
Proof.
  revert acc. induction zones as [|[[dx dy] radius] rest IH]; intros acc; simpl.
  - lra.
  - rewrite <- distance_euclid.
    destruct (Rltb (distance x ry dx dy) (radius * 2)) eqn:E; rewrite IH.
    + apply Rltb_true in E. rewrite Rmax_right by lra. lra.
    + apply Rltb_false in E. rewrite Rmax_left by lra. lra.
Qed.

Lemma scan_loop_spec (zones : list zone) (ry : Z) (xs : list Z) :
  forall sx ms,
    (scan_loop zones ry xs sx ms = (sx, ms)
     /\ forall x, In x xs -> below (danger_score zones x ry) ms = false)
    \/ (exists before x after,
           xs = before ++ x :: after
           /\ scan_loop zones ry xs sx ms = (x, Fin (danger_score zones x ry))
           /\ below (danger_score zones x ry) ms = true
           /\ (forall j, In j before ->
                         (danger_score zones x ry < danger_score zones j ry)%R)
           /\ (forall j, In j after ->
                         (danger_score zones x ry <= danger_score zones j ry)%R)).
Proof.
  induction xs as [|k xs IH]; intros sx ms.
  - left. split; [reflexivity | intros ? []].
  - cbn [scan_loop]. rewrite danger_loop_spec, Rplus_0_l.
    destruct (below (danger_score zones k ry) ms) eqn:Hb.
    + right.
      destruct (IH k (Fin (danger_score zones k ry)))
        as [[Heq Hall] | (before & x & after & Hsplit & Heq & Hbx & Hbef & Haft)].
      * exists [], k, xs. repeat split; try assumption.
        -- intros ? [].
        -- intros j Hin. specialize (Hall j Hin). now apply below_false in Hall.
      * exists (k :: before), x, after. repeat split; try assumption.
        -- now rewrite Hsplit.
        -- eapply below_trans; eassumption.
        -- intros j [<- | Hin]; [now apply below_true in Hbx | now apply Hbef].
    + destruct (IH sx ms)
        as [[Heq Hall] | (before & x & after & Hsplit & Heq & Hbx & Hbef & Haft)].
      * left. split; [assumption|].
        intros j [<- | Hin]; [assumption | now apply Hall].
      * right. exists (k :: before), x, after. repeat split; try assumption.
        -- now rewrite Hsplit.
        -- intros j [<- | Hin]; [eapply below_lt; eassumption | now apply Hbef].
Qed.

Lemma seq_split_order (l1 l2 : list nat) (i : nat) :
  forall a n, seq a n = l1 ++ i :: l2 ->
              (forall j, In j l1 -> (j < i)%nat) /\ (forall j, In j l2 -> (i < j)%nat).
Proof.
  induction l1 as [|b l1 IH]; intros a n Hs.
  - destruct n as [|n]; [discriminate|]. simpl in Hs. inversion Hs; subst.
    split; [intros ? [] | intros j Hin; apply in_seq in Hin; lia].
  - destruct n as [|n]; [discriminate|]. simpl in Hs. inversion Hs; subst.
    destruct (IH _ _ H1) as [Hb Ha]. split; [|exact Ha].
    intros j [<- | Hin]; [|now apply Hb].
    assert (In i (seq (S b) n)) by (rewrite H1; apply in_elt).
    apply in_seq in H. lia.
Qed.

Lemma py_range_In (start stop step x : Z) :
  0 < step ->
  In x (py_range start stop step) <->
  exists k, 0 <= k /\ x = start + step * k /\ x < stop.
Proof.
  intros Hstep. unfold py_range. rewrite in_map_iff. split.
  - intros (i & <- & Hin). apply in_seq in Hin. exists (Z.of_nat i).
    split; [lia | split; [reflexivity|]].
    destruct Hin as [_ Hi]. simpl in Hi.
    assert (Hq : Z.of_nat i < (stop - start + step - 1) / step) by lia.
    assert (Z.of_nat i + 1 <= (stop - start + step - 1) / step) by lia.
    assert (step * ((stop - start + step - 1) / step) <= stop - start + step - 1)
      by (apply Z.mul_div_le; lia).
    nia.
  - intros (k & Hk & -> & Hlt). exists (Z.to_nat k). split; [f_equal; lia|].
    apply in_seq. split; [lia|]. simpl.
    assert (k + 1 <= (stop - start + step - 1) / step); [|lia].
    apply Z.div_le_lower_bound; lia.
Qed.

Lemma py_range_split_order (start stop step x : Z) (before after : list Z) :
  0 < step ->
  py_range start stop step = before ++ x :: after ->
  (forall j, In j before -> j < x) /\ (forall j, In j after -> x < j).
Proof.
  intros Hstep Hs. unfold py_range in Hs.
  apply map_eq_app in Hs. destruct Hs as (l1 & l2 & Hseq & <- & H2).
  destruct l2 as [|i l2]; [discriminate|]. simpl in H2. inversion H2; subst.
  destruct (seq_split_order _ _ _ _ _ Hseq) as [Hb Ha].
  split; intros j Hin; apply in_map_iff in Hin; destruct Hin as (m & <- & Hm).
  - specialize (Hb m Hm). nia.
  - specialize (Ha m Hm). nia.
Qed.

Lemma scan_positions_scanned (frame_width x : Z) :
  In x (scan_positions frame_width) <-> scanned frame_width x.
Proof.
  unfold scan_positions, scanned. apply py_range_In. lia.
Qed.

(** *** The fallback scan in binary64 *)

Ltac cmp_cases :=
  repeat match goal with
    | |- context [Z.compare ?a ?b] => destruct (Z.compare_spec a b)
    | |- context [Pos.compare ?a ?b] => destruct (Pos.compare_spec a b)
    end.

Lemma ltb_lt (a b : F64.float) : F64.ltb a b = true <-> F64.lt a b.
Proof.
  unfold F64.ltb, SpecFloat.SFltb, F64.lt, F64.lex_lt.
  destruct a as [[|]|[|]| |[|] m1 e1], b as [[|]|[|]| |[|] m2 e2];
    cbn [SpecFloat.SFcompare F64.rank CompOpp];
    change (Pos.compare_cont Eq ?p ?q) with (Pos.compare p q);
    cmp_cases; cbn [CompOpp];
    (split; [intros Hg; try discriminate Hg; lia
            | intros Hg; try reflexivity; exfalso; lia]).
Qed.

Lemma leb_le (a b : F64.float) : F64.leb a b = true <-> F64.le a b.
Proof.
  unfold F64.leb, SpecFloat.SFleb, F64.le, F64.lex_lt.
  destruct a as [[|]|[|]| |[|] m1 e1], b as [[|]|[|]| |[|] m2 e2];
    cbn [SpecFloat.SFcompare F64.rank CompOpp];
    change (Pos.compare_cont Eq ?p ?q) with (Pos.compare p q);
    cmp_cases; cbn [CompOpp];
    (split; [intros Hg; try discriminate Hg; try (right; congruence); try (left; lia)
            | intros Hg; try reflexivity; exfalso;
              first [ exact Hg
                    | destruct Hg as [Hg | Hg]; [lia | inversion Hg; lia] ]]).
Qed.

Ltac by_rank :=
  unfold F64.lt, F64.le, F64.lex_lt;
  repeat match goal with
    | |- context [F64.rank ?a] => destruct (F64.rank a) as [[[? ?] ?]|]
    end;
  intuition (try congruence; try lia);
  repeat match goal with
    | H : (_, _, _) = (_, _, _) |- _ => inversion H; clear H; subst
    end; lia.

Lemma lt_trans (a b c : F64.float) : F64.lt a b -> F64.lt b c -> F64.lt a c.
Proof.
  by_rank.
Qed.

Lemma le_lt_trans (a b c : F64.float) : F64.le a b -> F64.lt b c -> F64.lt a c.
Proof.
  by_rank.
Qed.

Lemma lt_not_le (a b : F64.float) : F64.lt a b -> ~ F64.le b a.
Proof.
  by_rank.
Qed.

Lemma lt_le (a b : F64.float) : F64.lt a b -> F64.le a b.
Proof.
  by_rank.
Qed.

Lemma ltb_trans (a b c : F64.float) :
  F64.ltb a b = true -> F64.ltb b c = true -> F64.ltb a c = true.
Proof.
  rewrite !ltb_lt. apply lt_trans.
Qed.

Lemma leb_ltb_trans (a b c : F64.float) :
  F64.leb a b = true -> F64.ltb b c = true -> F64.ltb a c = true.
Proof.
  rewrite leb_le, !ltb_lt. apply le_lt_trans.
Qed.

Lemma ltb_not_leb (a b : F64.float) : F64.ltb a b = true -> F64.leb b a = false.
Proof.
  intros H. apply ltb_lt in H. destruct (F64.leb b a) eqn:E; [|reflexivity].
  apply leb_le in E. now elim (lt_not_le a b).
Qed.

Lemma leb_false_ltb (a b : F64.float) : F64.leb a b = false -> F64.ltb a b = false.
Proof.
  intros H. destruct (F64.ltb a b) eqn:E; [|reflexivity].
  apply ltb_lt, lt_le, leb_le in E. congruence.
Qed.

Lemma ltb_irrefl (a : F64.float) : F64.ltb a a = false.
Proof.
  destruct (F64.ltb a a) eqn:E; [|reflexivity].
  pose proof (ltb_not_leb _ _ E) as H. apply ltb_lt, lt_le, leb_le in E. congruence.
Qed.

(** The scan keeps the first position whose computed score no other
    position beats: every earlier position has a computed score that is
    not below or equal to it, no later one a score below it. *)
Lemma scan_loop64_spec (zones : list RocketBot64.zone) (ry : Z) (xs : list Z) :
  forall sx ms,
    (RocketBot64.scan_loop zones ry xs sx ms = (sx, ms)
     /\ forall x, In x xs ->
                  F64.ltb (RocketBot64.danger_loop zones x ry F64.zero) ms = false)
    \/ (exists before x after,
           xs = before ++ x :: after
           /\ RocketBot64.scan_loop zones ry xs sx ms
              = (x, RocketBot64.danger_loop zones x ry F64.zero)
           /\ F64.ltb (RocketBot64.danger_loop zones x ry F64.zero) ms = true
           /\ (forall j, In j before ->
                         F64.leb (RocketBot64.danger_loop zones j ry F64.zero)
                                 (RocketBot64.danger_loop zones x ry F64.zero) = false)
           /\ (forall j, In j after ->
                         F64.ltb (RocketBot64.danger_loop zones j ry F64.zero)
                                 (RocketBot64.danger_loop zones x ry F64.zero) = false)).
Proof.
  induction xs as [|k xs IH]; intros sx ms.
  - left. split; [reflexivity | intros ? []].
  - cbn [RocketBot64.scan_loop].
    destruct (F64.ltb (RocketBot64.danger_loop zones k ry F64.zero) ms) eqn:Hb.
    + right.
      destruct (IH k (RocketBot64.danger_loop zones k ry F64.zero))
        as [[Heq Hall] | (before & x & after & Hsplit & Heq & Hbx & Hbef & Haft)].
      * exists [], k, xs. repeat split; try assumption. intros ? [].
      * exists (k :: before), x, after. repeat split; try assumption.
        -- now rewrite Hsplit.
        -- eapply ltb_trans; eassumption.
        -- intros j [<- | Hin]; [now apply ltb_not_leb | now apply Hbef].
    + destruct (IH sx ms)
        as [[Heq Hall] | (before & x & after & Hsplit & Heq & Hbx & Hbef & Haft)].
      * left. split; [assumption|].
        intros j [<- | Hin]; [assumption | now apply Hall].
      * right. exists (k :: before), x, after. repeat split; try assumption.
        -- now rewrite Hsplit.
        -- intros j [<- | Hin]; [|now apply Hbef].
           destruct (F64.leb (RocketBot64.danger_loop zones k ry F64.zero)
                             (RocketBot64.danger_loop zones x ry F64.zero)) eqn:El;
             [|reflexivity].
           rewrite (leb_ltb_trans _ _ _ El Hbx) in Hb. discriminate.
Qed.

(** C5, amended.  When no item is path-safe, [calculate_safe_move] returns
    a target [(sx, ry)] on the rocket's row.  If some scanned position has
    a computed danger score below [float('inf')], then [sx] is a scanned
    position such that no scanned position has a computed score below that
    of [sx], and no scanned position to the left of [sx] has a computed
    score below or equal to it.  If no scanned position has such a score,
    in particular if nothing is scanned, [sx] is the rocket's column.  The
    computed score is the float64 value the code compares: the sum, in the
    order of the fireballs, of [radius * 2 - dist] over the zones with
    [dist < radius * 2]. *)
Theorem fallback_scan_minimises_computed_danger
        (rx ry : Z) (items : list item) (fireballs : list fireball) (frame_width : Z) :
  (forall ix iy area, In (ix, iy, area) items ->
                      path_safe (danger_zones fireballs) rx ry ix iy = false) ->
  exists sx,
    RocketBot64.calculate_safe_move (Some (rx, ry)) items fireballs frame_width
    = Some (sx, ry)
    /\ ((exists x, scanned frame_width x
                   /\ F64.ltb (RocketBot64.danger_score_at fireballs x ry) F64.inf
                      = true) ->
        scanned frame_width sx
        /\ forall x, scanned frame_width x ->
                     F64.ltb (RocketBot64.danger_score_at fireballs x ry)
                             (RocketBot64.danger_score_at fireballs sx ry) = false
                     /\ (x < sx ->
                         F64.leb (RocketBot64.danger_score_at fireballs x ry)
                                 (RocketBot64.danger_score_at fireballs sx ry) = false))
    /\ ((forall x, scanned frame_width x ->
                   F64.ltb (RocketBot64.danger_score_at fireballs x ry) F64.inf = false) ->
        sx = rx).
Proof.
  intros Hnone.
  assert (Hl : item_loop (danger_zones fireballs) rx ry items None Inf = (None, Inf))
    by (apply item_loop_none; exact Hnone).
  unfold RocketBot64.calculate_safe_move, RocketBot64.danger_score_at in *.
  rewrite Hl. cbn [fst].
  set (zones := RocketBot64.danger_zones fireballs) in *.
  destruct (scan_loop64_spec zones ry (scan_positions frame_width) rx F64.inf)
    as [[Heq Hall] | (before & sx & after & Hsplit & Heq & Hbx & Hbef & Haft)].
  - exists rx. rewrite Heq. cbn [fst]. split; [reflexivity|]. split; [|reflexivity].
    intros (x0 & Hx0 & Hfin).
    apply scan_positions_scanned in Hx0. specialize (Hall x0 Hx0). congruence.
  - exists sx. rewrite Heq. cbn [fst]. split; [reflexivity|].
    assert (Hsx : In sx (scan_positions frame_width))
      by (rewrite Hsplit; apply in_elt).
    split.
    + intros _. split; [now apply scan_positions_scanned|].
      destruct (py_range_split_order 50 (frame_width - 50) 20 sx before after)
        as [Hlt Hgt]; [lia | exact Hsplit |].
      intros x Hx. apply scan_positions_scanned in Hx. rewrite Hsplit in Hx.
      apply in_app_or in Hx. destruct Hx as [Hx | [<- | Hx]].
      * split; [apply leb_false_ltb|intros _]; now apply Hbef.
      * split; [apply ltb_irrefl | lia].
      * split; [now apply Haft|]. specialize (Hgt x Hx). lia.
    + intros Hinf. apply scan_positions_scanned in Hsx.
      specialize (Hinf sx Hsx). congruence.
Qed.

(** The three fireballs, rocket at (120, 615), frame 400 wide: the scores
    the code computes at the two ends of the scan differ in their last
    bit, and the right end, 330, has the smaller one. *)
Lemma three_fireballs_scores :
  RocketBot64.danger_score_at Scenario.three_fireballs 50 615
  = SpecFloat.S754_finite false 5162898668047826 (-44)
  /\ RocketBot64.danger_score_at Scenario.three_fireballs 330 615
     = SpecFloat.S754_finite false 5162898668047825 (-44).
Proof.
  split; vm_compute; reflexivity.
Qed.

Lemma three_fireballs_plan :
  RocketBot64.calculate_safe_move (Some (120, 615)) [] Scenario.three_fireballs 400
  = Some (330, 615).
Proof.
  unfold RocketBot64.calculate_safe_move. cbn [item_loop fst].
  vm_compute. reflexivity.
Qed.

Lemma fallback_scan_minimises_computed_danger_witness :
  (forall ix iy area, In (ix, iy, area) (@nil item) ->
                      path_safe (danger_zones Scenario.three_fireballs) 120 615 ix iy
                      = false)
  /\ exists sx,
      RocketBot64.calculate_safe_move (Some (120, 615)) [] Scenario.three_fireballs 400
      = Some (sx, 615)
      /\ sx = 330
      /\ scanned 400 sx
      /\ forall x, scanned 400 x ->
                   F64.ltb (RocketBot64.danger_score_at Scenario.three_fireballs x 615)
                           (RocketBot64.danger_score_at Scenario.three_fireballs sx 615)
                   = false
                   /\ (x < sx ->
                       F64.leb (RocketBot64.danger_score_at Scenario.three_fireballs x 615)
                               (RocketBot64.danger_score_at Scenario.three_fireballs sx 615)
                       = false).
Proof.
  assert (H1 : forall ix iy area, In (ix, iy, area) (@nil item) ->
                 path_safe (danger_zones Scenario.three_fireballs) 120 615 ix iy = false)
    by (intros ? ? ? []).
  assert (H2 : exists x, scanned 400 x
                 /\ F64.ltb (RocketBot64.danger_score_at Scenario.three_fireballs x 615)
                            F64.inf = true).
  { exists 50. split; [exists 0; repeat split; lia | vm_compute; reflexivity]. }
  split; [exact H1|].
  destruct (fallback_scan_minimises_computed_danger 120 615 [] Scenario.three_fireballs 400
              H1) as (sx & Heq & Hmin & _).
  exists sx. split; [exact Heq|].
  split; [rewrite three_fireballs_plan in Heq; congruence|].
  exact (Hmin H2).
Defined.

(** C5 as stated fails.  On the three fireballs the planner returns the
    column 330, although the column 50, to its left, has the same danger
    score: the two sums have the same terms, added in a different order,
    and only their float64 values differ. *)
Lemma fallback_tie_not_leftmost :
  RocketBot64.calculate_safe_move (Some (120, 615)) [] Scenario.three_fireballs 400
  = Some (330, 615)
  /\ scanned 400 50
  /\ 50 < 330
  /\ danger_score (danger_zones Scenario.three_fireballs) 50 615
     = danger_score (danger_zones Scenario.three_fireballs) 330 615.
Proof.
  split; [exact three_fireballs_plan|].
  split; [exists 0; repeat split; lia|].
  split; [lia|].
  unfold Scenario.three_fireballs.
  cbn [danger_zones map center danger_radius danger_score].
  assert (E1 : euclid 50 615 130 640 = euclid 330 615 250 640)
    by (unfold euclid; f_equal; lra).
  assert (E2 : euclid 50 615 250 640 = euclid 330 615 130 640)
    by (unfold euclid; f_equal; lra).
  assert (E3 : euclid 50 615 190 391 = euclid 330 615 190 391)
    by (unfold euclid; f_equal; lra).
  rewrite E1, E2, E3. ring.
Qed.

(** ** Python's sort *)

Section PySortFacts.
Context {A : Type}.
Variable leb : A -> A -> bool.

Lemma insert_sorted_perm (x : A) (l : list A) :
  Permutation (insert_sorted leb x l) (x :: l).
Proof.
  induction l as [|y l IH]; simpl.
  - apply Permutation_refl.
  - destruct (leb x y).
    + apply Permutation_refl.
    + eapply perm_trans; [apply perm_skip, IH | apply perm_swap].
Qed.

Lemma py_sorted_perm (l : list A) : Permutation (py_sorted leb l) l.
Proof.
  induction l as [|x l IH]; simpl.
  - apply perm_nil.
  - eapply perm_trans; [apply insert_sorted_perm | apply perm_skip, IH].
Qed.

Lemma py_sorted_In (x : A) (l : list A) : In x (py_sorted leb l) <-> In x l.
Proof.
  split; apply Permutation_in; [|apply Permutation_sym]; apply py_sorted_perm.
Qed.

Lemma hd_insert_sorted (x : A) (l : list A) :
  hd_error (insert_sorted leb x l)
  = match hd_error l with
    | None => Some x
    | Some m => if leb x m then Some x else Some m
    end.
Proof.
  destruct l as [|y l]; simpl; [reflexivity|]. now destruct (leb x y).
Qed.

Hypothesis leb_total : forall a b, leb a b = false -> leb b a = true.
Hypothesis leb_trans : forall a b c, leb a b = true -> leb b c = true -> leb a c = true.

Lemma insert_sorted_sorted (x : A) (l : list A) :
  StronglySorted (fun a b => leb a b = true) l ->
  StronglySorted (fun a b => leb a b = true) (insert_sorted leb x l).
Proof.
  induction l as [|y l IH]; intros Hs; simpl.
  - constructor; constructor.
  - inversion Hs as [|? ? Hl Hy]; subst.
    destruct (leb x y) eqn:E.
    + constructor; [exact Hs|]. constructor; [exact E|].
      eapply Forall_impl; [|exact Hy]. intros z Hz. eapply leb_trans; eassumption.
    + constructor; [now apply IH|].
      apply (Permutation_Forall (Permutation_sym (insert_sorted_perm x l))).
      constructor; [now apply leb_total | exact Hy].
Qed.

Lemma py_sorted_sorted (l : list A) :
  StronglySorted (fun a b => leb a b = true) (py_sorted leb l).
Proof.
  induction l as [|x l IH]; simpl; [constructor | now apply insert_sorted_sorted].
Qed.

Lemma py_sorted_fixed (l : list A) :
  StronglySorted (fun a b => leb a b = true) l -> py_sorted leb l = l.
Proof.
  induction l as [|x l IH]; intros Hs; simpl; [reflexivity|].
  inversion Hs as [|? ? Hl Hx]; subst. rewrite IH by exact Hl.
  destruct l as [|y l]; simpl; [reflexivity|].
  inversion Hx as [|? ? Hxy _]; subst. now rewrite Hxy.
Qed.

End PySortFacts.

(** ** Detection in the steering bot *)

Lemma rocket_loop_some (contours : list contour) (p : Z * Z) :
  rocket_loop contours = Some p ->
  exists c, In c contours
            /\ (500 < contourArea c < 10000)%R /\ (0 < m00 c)%R
            /\ p = moment_centroid c.
Proof.
  induction contours as [|c rest IH]; simpl; [discriminate|].
  destruct (Rltb 500 (contourArea c) && Rltb (contourArea c) 10000) eqn:Ea.
  - destruct (Rltb 0 (m00 c)) eqn:Em.
    + intros [= <-]. exists c. apply andb_prop in Ea. destruct Ea as [E1 E2].
      apply Rltb_true in E1, E2, Em. repeat split; auto.
    + intros H. destruct (IH H) as (c' & Hin & Hc). exists c'. split; [now right | exact Hc].
  - intros H. destruct (IH H) as (c' & Hin & Hc). exists c'. split; [now right | exact Hc].
Qed.

Lemma rocket_loop_none (contours : list contour) :
  (forall c, In c contours -> ~ (500 < contourArea c < 10000)%R) ->
  rocket_loop contours = None.
Proof.
  induction contours as [|c rest IH]; intros Hall; simpl; [reflexivity|].
  destruct (Rltb 500 (contourArea c) && Rltb (contourArea c) 10000) eqn:Ea.
  - apply andb_prop in Ea. destruct Ea as [E1 E2]. apply Rltb_true in E1, E2.
    exfalso. apply (Hall c); [now left | split; assumption].
  - apply IH. intros c' Hin. apply Hall. now right.
Qed.

(** C9.  [find_rocket] stores a new position only when some contour of
    the frame passes the area filter, and then the returned and the stored
    position are that contour's centroid; when no contour passes it, and in
    particular when there is no contour, the stored position is unchanged
    and is the returned value, so a stored position is never cleared. *)
Theorem find_rocket_keeps_last_position
        (rocket_pos : option (Z * Z)) (contours : list contour) :
  ((forall c, In c contours -> ~ (500 < contourArea c < 10000)%R) ->
   find_rocket rocket_pos contours = (rocket_pos, rocket_pos))
  /\ (snd (find_rocket rocket_pos contours) <> rocket_pos ->
      exists c, In c contours /\ (500 < contourArea c < 10000)%R
                /\ find_rocket rocket_pos contours
                   = (Some (moment_centroid c), Some (moment_centroid c)))
  /\ find_rocket rocket_pos [] = (rocket_pos, rocket_pos)
  /\ (rocket_pos <> None -> snd (find_rocket rocket_pos contours) <> None).
Proof.
  unfold find_rocket. split; [|split; [|split]].
  - intros Hall. rewrite rocket_loop_none; [reflexivity|].
    intros c Hin. apply Hall. now apply py_sorted_In in Hin.
  - destruct (rocket_loop (py_sorted area_desc contours)) as [p|] eqn:E; simpl.
    + intros _. apply rocket_loop_some in E.
      destruct E as (c & Hin & Ha & _ & ->). exists c.
      apply py_sorted_In in Hin. repeat split; auto; apply Ha.
    + intros H. now contradiction H.
  - reflexivity.
  - intros Hp. destruct (rocket_loop (py_sorted area_desc contours)); simpl;
      [discriminate | exact Hp].
Qed.

(** Deciding the comparisons of concrete floats. *)
Ltac float_cmp :=
  repeat match goal with
    | |- context [Rltb ?a ?b] =>
        first [ rewrite (proj2 (Rltb_true a b)) by lra
              | rewrite (proj2 (Rltb_false a b)) by lra ]
    | |- context [Rgeb ?a ?b] =>
        first [ rewrite (proj2 (Rgeb_true a b)) by lra
              | rewrite (proj2 (Rgeb_false a b)) by lra ]
    end.

Lemma find_items_center (contours : list contour) (cx cy : Z) (area : R) :
  In (cx, cy, area) (find_items contours) ->
  exists c, In c contours
            /\ (cx, cy) = bbox_center (boundingRect c) /\ area = contourArea c.
Proof.
  induction contours as [|c rest IH]; simpl; [intros []|].
  assert (Hrest : In (cx, cy, area) (find_items rest) ->
                  exists c0, (c = c0 \/ In c0 rest)
                             /\ (cx, cy) = bbox_center (boundingRect c0)
                             /\ area = contourArea c0).
  { intros H. destruct (IH H) as (c' & Hin & Hc). exists c'. split; [now right | exact Hc]. }
  destruct (Rltb 1000 (contourArea c) && Rltb (contourArea c) 20000); [|exact Hrest].
  destruct (boundingRect c) as [[[x y] w] h] eqn:Eb.
  match goal with |- In _ (if ?b then _ else _) -> _ => destruct b end; [|exact Hrest].
  intros [Heq | Hin]; [|now apply Hrest].
  inversion Heq; subst. exists c. rewrite Eb. simpl. auto.
Qed.

Lemma find_fireballs_center (contours : list contour) (fb : fireball) :
  In fb (find_fireballs contours) ->
  exists c, In c contours
            /\ center fb = bbox_center (boundingRect c) /\ bounds fb = boundingRect c.
Proof.
  induction contours as [|c rest IH]; simpl; [intros []|].
  assert (Hrest : In fb (find_fireballs rest) ->
                  exists c0, (c = c0 \/ In c0 rest)
                             /\ center fb = bbox_center (boundingRect c0)
                             /\ bounds fb = boundingRect c0).
  { intros H. destruct (IH H) as (c' & Hin & Hc). exists c'. split; [now right | exact Hc]. }
  destruct (Rltb 2000 (contourArea c)); [|exact Hrest].
  destruct (boundingRect c) as [[[x y] w] h] eqn:Eb.
  intros [Heq | Hin]; [|now apply Hrest].
  subst fb. exists c. rewrite Eb. simpl. auto.
Qed.

Lemma triangle_moment_centroid : moment_centroid Scenario.triangle = (30, 30).
Proof.
  unfold moment_centroid, Scenario.triangle. simpl.
  rewrite (np_int_eq _ 30) by lra. reflexivity.
Qed.

Lemma triangle_items : find_items [Scenario.triangle] = [(45, 45, 4050%R)].
Proof.
  unfold Scenario.triangle. simpl. float_cmp. reflexivity.
Qed.

Lemma triangle_fireballs :
  find_fireballs [Scenario.triangle]
  = [{| center := (45, 45); bounds := (0, 0, 91, 91); danger_radius := 91 |}].
Proof.
  unfold Scenario.triangle. simpl. float_cmp. reflexivity.
Qed.

(** C1, as stated, fails.  On the triangle contour the centroid from the
    moments is (30, 30), and [find_rocket] returns it, but [find_items] and
    [find_fireballs] both record (45, 45), the centre of the bounding box. *)
Lemma items_and_fireballs_not_moment_based :
  fst (find_rocket None [Scenario.triangle]) = Some (moment_centroid Scenario.triangle)
  /\ (exists cx cy area,
        In (cx, cy, area) (find_items [Scenario.triangle])
        /\ (cx, cy) <> moment_centroid Scenario.triangle)
  /\ (exists fb,
        In fb (find_fireballs [Scenario.triangle])
        /\ center fb <> moment_centroid Scenario.triangle).
Proof.
  rewrite triangle_moment_centroid, triangle_items, triangle_fireballs.
  split; [|split].
  - unfold find_rocket, Scenario.triangle. simpl. float_cmp. simpl.
    rewrite !(np_int_eq _ 30) by lra. reflexivity.
  - exists 45, 45, 4050%R. split; [now left | discriminate].
  - eexists. split; [now left | discriminate].
Qed.

(** ** The selector of the click bot *)

Section Selector.
Import ShooterBot.

Ltac boxes :=
  repeat match goal with
    | b : box |- _ => destruct b as [[[? ?] ?] ?]
    end;
  unfold by_key, tuple_le, sort_key, above_or_left, strictly_above_or_left in *;
  cbn [fst snd] in *.

Lemma by_key_true (a b : box) : by_key a b = true <-> above_or_left a b.
Proof.
  boxes. rewrite orb_true_iff, andb_true_iff, Z.ltb_lt, Z.eqb_eq, Z.leb_le. tauto.
Qed.

Lemma by_key_false (a b : box) : by_key a b = false <-> strictly_above_or_left b a.
Proof.
  boxes. rewrite orb_false_iff, andb_false_iff, Z.ltb_ge, Z.eqb_neq, Z.leb_gt. lia.
Qed.

Lemma by_key_total (a b : box) : by_key a b = false -> by_key b a = true.
Proof.
  rewrite by_key_false, by_key_true. boxes. lia.
Qed.

Lemma by_key_trans (a b c : box) :
  by_key a b = true -> by_key b c = true -> by_key a c = true.
Proof.
  rewrite !by_key_true. boxes. lia.
Qed.

Lemma first_box_cons (b : box) (l : list box) :
  first_box (b :: l)
  = match first_box l with
    | None => Some b
    | Some m => if by_key b m then Some b else Some m
    end.
Proof.
  unfold first_box. simpl. apply hd_insert_sorted.
Qed.

Lemma first_box_none (l : list box) : first_box l = None <-> l = [].
Proof.
  destruct l as [|b l]; [split; reflexivity|].
  rewrite first_box_cons. split; [|discriminate].
  destruct (first_box l); [destruct (by_key b b0)|]; discriminate.
Qed.

Lemma first_box_spec (l : list box) (b : box) :
  first_box l = Some b ->
  exists before after,
    l = before ++ b :: after
    /\ (forall b', In b' before -> strictly_above_or_left b b')
    /\ (forall b', In b' after -> above_or_left b b').
Proof.
  revert b. induction l as [|x l IH]; intros b; [discriminate|].
  rewrite first_box_cons. destruct (first_box l) as [m|] eqn:Em.
  - destruct (IH m eq_refl) as (bef & aft & -> & Hbef & Haft).
    destruct (by_key x m) eqn:E; intros [= <-].
    + exists [], (bef ++ m :: aft). split; [reflexivity|]. split; [intros ? []|].
      apply by_key_true in E.
      intros b' Hin. apply in_app_or in Hin. destruct Hin as [Hin | [<- | Hin]].
      * specialize (Hbef b' Hin). boxes. lia.
      * exact E.
      * specialize (Haft b' Hin). boxes. lia.
    + exists (x :: bef), aft. split; [reflexivity|]. split; [|exact Haft].
      intros b' [<- | Hin]; [now apply by_key_false | now apply Hbef].
  - apply first_box_none in Em. subst l. intros [= <-].
    exists [], []. split; [reflexivity|]. split; intros ? [].
Qed.

Lemma first_box_min (l : list box) (b : box) :
  first_box l = Some b -> In b l /\ forall b', In b' l -> above_or_left b b'.
Proof.
  intros H. destruct (first_box_spec l b H) as (bef & aft & -> & Hbef & Haft).
  split; [apply in_elt|].
  intros b' Hin. apply in_app_or in Hin. destruct Hin as [Hin | [<- | Hin]].
  - specialize (Hbef b' Hin). boxes. lia.
  - boxes. lia.
  - now apply Haft.
Qed.

(** C6.  The selector sorts the boxes in ascending order of (y, x) and
    takes the first one.  The sorted list is a rearrangement of the
    detections in that order; the selected box is a detection that is
    strictly above-or-left of the detections before it and above-or-left
    of those after it; a non-empty list always yields a box; selecting
    again from the sorted list, or from any rearrangement of the same
    detections, yields a box with the same (y, x); and of (10,10,20,20)
    and (5,50,20,20) the first is selected. *)
Theorem selector_takes_topmost_leftmost (red_boxes : list box) :
  Permutation (py_sorted by_key red_boxes) red_boxes
  /\ StronglySorted above_or_left (py_sorted by_key red_boxes)
  /\ (forall b, first_box red_boxes = Some b ->
                exists before after,
                  red_boxes = before ++ b :: after
                  /\ (forall b', In b' before -> strictly_above_or_left b b')
                  /\ (forall b', In b' after -> above_or_left b b'))
  /\ (red_boxes <> [] -> exists b, first_box red_boxes = Some b)
  /\ first_box (py_sorted by_key red_boxes) = first_box red_boxes
  /\ (forall other, Permutation red_boxes other ->
                    option_map sort_key (first_box other)
                    = option_map sort_key (first_box red_boxes))
  /\ first_box [(10, 10, 20, 20); (5, 50, 20, 20)] = Some (10, 10, 20, 20).
Proof.
  assert (Hs : StronglySorted (fun a b => by_key a b = true) (py_sorted by_key red_boxes))
    by (apply py_sorted_sorted; [apply by_key_total | apply by_key_trans]).
  split; [apply py_sorted_perm|].
  split.
  { clear -Hs. induction Hs as [|a l Hl IH Ha]; constructor; [exact IH|].
    eapply Forall_impl; [|exact Ha]. intros b. apply by_key_true. }
  split; [apply first_box_spec|].
  split.
  { intros Hne. destruct (first_box red_boxes) as [b|] eqn:E; [now exists b|].
    apply first_box_none in E. contradiction. }
  split.
  { unfold first_box at 1. now rewrite (py_sorted_fixed by_key _ Hs). }
  split; [|reflexivity].
  intros other Hperm.
  destruct (first_box red_boxes) as [b|] eqn:E, (first_box other) as [b'|] eqn:E'; simpl.
  - apply first_box_min in E, E'. destruct E as [Hin Hmin], E' as [Hin' Hmin'].
    specialize (Hmin b' (Permutation_in _ (Permutation_sym Hperm) Hin')).
    specialize (Hmin' b (Permutation_in _ Hperm Hin)).
    f_equal. boxes. f_equal; lia.
  - apply first_box_none in E'. subst other.
    apply Permutation_sym, Permutation_nil in Hperm. subst. discriminate.
  - apply first_box_none in E. subst red_boxes.
    apply Permutation_nil in Hperm. subst. discriminate.
  - reflexivity.
Qed.

End Selector.

(** ** The rate limit of the click bot *)

Section Cooldown.
Import ShooterBot.

Variable reg : region.
Variable click_delay : R.

Lemma iteration_cases (o : observation) (s : locals) :
  iteration reg click_delay o s = s
  \/ (exists c, clicks (iteration reg click_delay o s) = c :: clicks s
                /\ at_time c = current_time o
                /\ last_click_time (iteration reg click_delay o s) = current_time o
                /\ first_box (red_boxes o) = Some (target c)
                /\ screen c = (left reg + fst (click_point (target c)),
                               top reg + snd (click_point (target c)))
                /\ (click_delay <= current_time o - last_click_time s)%R).
Proof.
  unfold iteration.
  destruct (negb (length (red_boxes o) =? 0)%nat); simpl; [|now left].
  destruct (Rgeb (current_time o - last_click_time s) click_delay) eqn:E; [|now left].
  apply Rgeb_true in E.
  destruct (first_box (red_boxes o)) as [b|]; [|now left].
  right. destruct (click_point b) as [click_x click_y] eqn:Ec.
  eexists. simpl. repeat split; try reflexivity; try assumption.
  simpl. now rewrite Ec.
Qed.

Lemma loop_app (obs1 obs2 : list observation) (s : locals) :
  loop reg click_delay (obs1 ++ obs2) s
  = loop reg click_delay obs2 (loop reg click_delay obs1 s).
Proof.
  revert s. induction obs1 as [|o obs1 IH]; intros s; simpl; [reflexivity | apply IH].
Qed.

Lemma run_bot_snoc (obs : list observation) (o : observation) :
  run_bot reg click_delay (obs ++ [o])
  = iteration reg click_delay o (run_bot reg click_delay obs).
Proof.
  unfold run_bot. now rewrite loop_app.
Qed.

(** The loop invariant: [last_click_time] is the reading of the newest
    click and the log is spaced. *)
Lemma loop_invariant (obs : list observation) :
  forall s,
    last_click_time s = newest_time (clicks s) -> spaced click_delay (clicks s) ->
    last_click_time (loop reg click_delay obs s)
    = newest_time (clicks (loop reg click_delay obs s))
    /\ spaced click_delay (clicks (loop reg click_delay obs s)).
Proof.
  induction obs as [|o obs IH]; intros s Hl Hs; simpl; [now split|].
  apply IH.
  - destruct (iteration_cases o s) as [-> | (c & Hc & Ht & Hlc & _)]; [exact Hl|].
    rewrite Hc, Hlc. simpl. now rewrite Ht.
  - destruct (iteration_cases o s) as [-> | (c & Hc & Ht & _ & _ & _ & Hd)]; [exact Hs|].
    rewrite Hc. simpl. split; [|exact Hs]. rewrite Ht, <- Hl. exact Hd.
Qed.

Lemma spaced_tail (l1 l2 : list click) :
  spaced click_delay (l1 ++ l2) -> spaced click_delay l2.
Proof.
  induction l1 as [|c l1 IH]; simpl; [trivial | intros [_ H]; now apply IH].
Qed.

Lemma spaced_older (l : list click) :
  (0 <= click_delay)%R ->
  forall c, spaced click_delay (c :: l) ->
            forall c', In c' l -> (at_time c' + click_delay <= at_time c)%R.
Proof.
  intros Hd. induction l as [|c1 l IH]; intros c Hs c' Hin; [destruct Hin|].
  destruct Hs as [H1 Hs]. simpl in H1. destruct Hin as [<- | Hin]; [lra|].
  specialize (IH c1 Hs c' Hin). lra.
Qed.

(** C7.  In the click loop a click is dispatched in an iteration only if
    the clock reading of that iteration is at least [click_delay] after the
    reading of the previously dispatched click (after 0, the initial
    [last_click_time], for the first click).  Hence in the log of any run
    two consecutive clicks are at least [click_delay] apart, and no two
    clicks are within [click_delay] of each other, whatever boxes the
    iterations in between detect. *)
Theorem clicks_respect_delay (obs : list observation) :
  (forall o,
      clicks (run_bot reg click_delay (obs ++ [o])) <> clicks (run_bot reg click_delay obs) ->
      exists c,
        clicks (run_bot reg click_delay (obs ++ [o]))
        = c :: clicks (run_bot reg click_delay obs)
        /\ at_time c = current_time o
        /\ (click_delay
            <= current_time o - newest_time (clicks (run_bot reg click_delay obs)))%R)
  /\ (forall l1 c c' l2,
         clicks (run_bot reg click_delay obs) = l1 ++ c :: c' :: l2 ->
         (click_delay <= at_time c - at_time c')%R)
  /\ (forall l1 c l2 c' l3,
         clicks (run_bot reg click_delay obs) = l1 ++ c :: l2 ++ c' :: l3 ->
         (click_delay <= Rabs (at_time c - at_time c'))%R).
Proof.
  assert (Hinv : forall obs',
             last_click_time (run_bot reg click_delay obs')
             = newest_time (clicks (run_bot reg click_delay obs'))
             /\ spaced click_delay (clicks (run_bot reg click_delay obs'))).
  { intros obs'. unfold run_bot. apply loop_invariant; simpl; auto. }
  split; [|split].
  - intros o. rewrite run_bot_snoc. intros Hne.
    destruct (iteration_cases o (run_bot reg click_delay obs))
      as [Heq | (c & Hc & Ht & _ & _ & _ & Hd)].
    + rewrite Heq in Hne. now contradiction Hne.
    + exists c. rewrite <- (proj1 (Hinv obs)). auto.
  - intros l1 c c' l2 Hlog. destruct (Hinv obs) as [_ Hs].
    rewrite Hlog in Hs. apply spaced_tail in Hs. destruct Hs as [H _]. exact H.
  - intros l1 c l2 c' l3 Hlog. destruct (Hinv obs) as [_ Hs].
    rewrite Hlog in Hs. apply spaced_tail in Hs.
    destruct (Rle_dec 0 click_delay) as [Hd | Hd].
    + assert (at_time c' + click_delay <= at_time c)%R.
      { eapply spaced_older; [exact Hd | exact Hs | apply in_elt]. }
      rewrite Rabs_right; lra.
    + pose proof (Rabs_pos (at_time c - at_time c')). lra.
Qed.

End Cooldown.

Lemma three_frames_clicks :
  ShooterBot.clicks (ShooterBot.run_bot Scenario.capture 0.5 Scenario.three_frames)
  = [{| ShooterBot.at_time := 1.6; ShooterBot.target := (10, 10, 20, 20);
        ShooterBot.screen := (320, 220) |};
     {| ShooterBot.at_time := 1; ShooterBot.target := (10, 10, 20, 20);
        ShooterBot.screen := (320, 220) |}].
Proof.
  unfold ShooterBot.run_bot, Scenario.three_frames. cbn [ShooterBot.loop].
  unfold ShooterBot.iteration at 3. simpl. float_cmp. simpl.
  unfold ShooterBot.iteration at 2. simpl. float_cmp. simpl.
  unfold ShooterBot.iteration at 1. simpl. float_cmp. simpl.
  reflexivity.
Qed.

Lemma clicks_respect_delay_witness :
  exists c c',
    ShooterBot.clicks (ShooterBot.run_bot Scenario.capture 0.5 Scenario.three_frames)
    = [] ++ c :: c' :: []
    /\ ShooterBot.at_time c = 1.6%R /\ ShooterBot.at_time c' = 1%R
    /\ (0.5 <= ShooterBot.at_time c - ShooterBot.at_time c')%R.
Proof.
  eexists. eexists.
  split; [rewrite three_frames_clicks; reflexivity|].
  split; [reflexivity|]. split; [reflexivity|].
  apply (proj1 (proj2 (clicks_respect_delay Scenario.capture 0.5 Scenario.three_frames))
           [] _ _ []).
  rewrite three_frames_clicks. reflexivity.
Defined.

Lemma cons_neq_self {A : Type} (x : A) (l : list A) : l <> x :: l.
Proof.
  intros H. apply (f_equal (@length A)) in H. simpl in H. lia.
Qed.

(** C1, amended.  [find_rocket] returns the centroid computed from the
    image moments of a contour of the frame (or the stored position);
    [find_items] and [find_fireballs] record the centre of the bounding box
    of a contour, (x + w // 2, y + h // 2); the click bot clicks the centre
    of the bounding box of the selected box, offset by the region origin. *)
Theorem centroid_kind_per_class :
  (forall rocket_pos contours,
      fst (find_rocket rocket_pos contours) = rocket_pos
      \/ exists c, In c contours
                   /\ fst (find_rocket rocket_pos contours) = Some (moment_centroid c))
  /\ (forall contours cx cy area,
         In (cx, cy, area) (find_items contours) ->
         exists c, In c contours /\ (cx, cy) = bbox_center (boundingRect c))
  /\ (forall contours fb,
         In fb (find_fireballs contours) ->
         exists c, In c contours /\ center fb = bbox_center (boundingRect c))
  /\ (forall b, ShooterBot.click_point b = bbox_center b)
  /\ (forall reg click_delay o s c,
         ShooterBot.clicks (ShooterBot.iteration reg click_delay o s)
         = c :: ShooterBot.clicks s ->
         ShooterBot.first_box (ShooterBot.red_boxes o) = Some (ShooterBot.target c)
         /\ ShooterBot.screen c
            = (ShooterBot.left reg + fst (bbox_center (ShooterBot.target c)),
               ShooterBot.top reg + snd (bbox_center (ShooterBot.target c)))).
Proof.
  split; [|split; [|split; [|split]]].
  - intros rocket_pos contours. unfold find_rocket.
    destruct (rocket_loop (py_sorted area_desc contours)) as [p|] eqn:E; [|now left].
    right. apply rocket_loop_some in E. destruct E as (c & Hin & _ & _ & ->).
    exists c. split; [now apply py_sorted_In in Hin | reflexivity].
  - intros contours cx cy area Hin.
    destruct (find_items_center _ _ _ _ Hin) as (c & Hc & Hb & _). now exists c.
  - intros contours fb Hin.
    destruct (find_fireballs_center _ _ Hin) as (c & Hc & Hb & _). now exists c.
  - intros [[[x y] w] h]. reflexivity.
  - intros reg click_delay o s c Hc.
    destruct (iteration_cases reg click_delay o s)
      as [Heq | (c0 & Hc0 & _ & _ & Hfirst & Hscreen & _)].
    + rewrite Heq in Hc. exfalso. exact (cons_neq_self _ _ Hc).
    + rewrite Hc0 in Hc. inversion Hc; subst c0. split; [exact Hfirst|].
      rewrite Hscreen. now destruct (ShooterBot.target c) as [[[x y] w] h].
Qed.

(** ** Runs of the steering bot on the concrete scene *)

Section Runs.
Import RocketRun.

Lemma find_rocket_triangle (old : option (Z * Z)) :
  find_rocket old [Scenario.triangle] = (Some (30, 30), Some (30, 30)).
Proof.
  unfold find_rocket, Scenario.triangle. simpl. float_cmp. simpl.
  rewrite !(np_int_eq _ 30) by lra. reflexivity.
Qed.

(** With no item and no fireball every scanned position scores 0 and the
    leftmost one, 50, is kept. *)
Lemma plan_empty_scene : calculate_safe_move (Some (30, 30)) [] [] 130 = Some (50, 30).
Proof.
  unfold calculate_safe_move. simpl. float_cmp. reflexivity.
Qed.

#[local] Arguments calculate_safe_move : simpl never.
#[local] Arguments find_rocket : simpl never.

Ltac run_script :=
  unfold run, finally, loop, iteration, capture_game, move_rocket;
  repeat first [ rewrite find_rocket_triangle | rewrite plan_empty_scene
               | progress unfold bind, call, ret, modify, throw | progress simpl ].

(** The grab, one drag, then a keyboard interrupt in the final sleep: the
    interrupt is caught and the release goes through. *)
Example interrupted_run :
  exists s',
    run false [Scenario.quiet_tick; Scenario.interrupted_tick] None
        (init (Some Scenario.game))
    = (Some (Returned (Raised KeyboardInterrupt)), s')
    /\ pointer s' = [MouseUp; MoveTo 350 230; MouseDown; MoveTo 330 230].
Proof.
  eexists. split; [run_script; reflexivity | reflexivity].
Qed.

(** The stop key during the second iteration: the iteration finishes, the
    loop condition is false, the button is released. *)
Example stopped_run :
  exists s',
    run false [Scenario.quiet_tick; Scenario.stop_tick] None (init (Some Scenario.game))
    = (Some (Returned Stopped), s')
    /\ pointer s' = [MouseUp; MoveTo 350 230; MouseDown; MoveTo 330 230].
Proof.
  eexists. split; [run_script; reflexivity | reflexivity].
Qed.

(** An exception in the drag of the second iteration leaves [run] after
    the release, when the release itself does not raise. *)
Example failing_run :
  exists s',
    run false [Scenario.quiet_tick; Scenario.failing_tick] None (init (Some Scenario.game))
    = (Some (Propagated OtherException), s')
    /\ pointer s' = [MouseUp; MouseDown; MoveTo 330 230].
Proof.
  eexists. split; [run_script; reflexivity | reflexivity].
Qed.

(** While the script goes on and nothing stops the loop, [run] has not
    ended and the button stays held. *)
Example running_run :
  exists s',
    run false [Scenario.quiet_tick; Scenario.quiet_tick] None (init (Some Scenario.game))
    = (None, s')
    /\ pointer s' = [MoveTo 350 230; MouseDown; MoveTo 330 230].
Proof.
  eexists. split; [run_script; reflexivity | reflexivity].
Qed.

(** In debug mode, a first frame without a rocket leaves [target] unbound
    and the debug part raises; the button was never pressed. *)
Example unbound_target_run :
  exists s',
    run true [Scenario.blank_tick] None (init (Some Scenario.game))
    = (Some (Propagated OtherException), s')
    /\ pointer s' = [] /\ mouse_pressed s' = false.
Proof.
  eexists. split.
  - unfold run, finally, loop, iteration, capture_game.
    unfold bind, call, ret, modify, throw. simpl. reflexivity.
  - split; reflexivity.
Qed.

(** C8.  [run] can end with the button held, on two of its exit paths.

    Abort by the fail-safe.  The first iteration grabs the rocket.  During
    the second the pointer is in a corner of the screen: the drag raises
    the fail-safe exception, the [finally] block finds [mouse_pressed] set
    and calls [pyautogui.mouseUp()], which raises for the same reason
    before it releases.  [run] is left by the exception, the flag is set,
    no release was sent and the button is down.

    Interrupt during the press.  An interrupt that arrives once the button
    is down and before the flag is assigned is caught by [run]; the
    [finally] block finds the flag unset and does not call the release:
    [run] returns with the button down. *)
Theorem run_can_leave_button_held :
  (exists s',
      run false [Scenario.quiet_tick; Scenario.failing_tick] (Some OtherException)
          (init (Some Scenario.game))
      = (Some (Propagated OtherException), s')
      /\ mouse_pressed s' = true
      /\ running s' = false
      /\ pointer s' = [MouseDown; MoveTo 330 230]
      /\ button_down (pointer s') = true)
  /\ (exists s',
         run false [Scenario.pressing_tick] None (init (Some Scenario.game))
         = (Some (Returned (Raised KeyboardInterrupt)), s')
         /\ mouse_pressed s' = false
         /\ running s' = false
         /\ pointer s' = [MouseDown; MoveTo 330 230]
         /\ button_down (pointer s') = true).
Proof.
  split; eexists; (split; [run_script; reflexivity | repeat split]).
Qed.

End Runs.

(** ** The second end-to-end scenario of the planner *)

Lemma distance_row (x dx y : Z) : distance x y dx y = IZR (Z.abs (x - dx)).
Proof.
  unfold distance, np_sqrt.
  replace ((x - dx) ^ 2 + (y - y) ^ 2) with (Z.abs (x - dx) * Z.abs (x - dx)) by lia.
  rewrite mult_IZR. apply sqrt_square. apply IZR_le. lia.
Qed.

(** Rocket at (100, 100), an item at (150, 100) and the fireball centred at
    (125, 100) between them: the item is rejected and the scan over 50, 70,
    90, 110, 130 keeps 50, whose danger score 45 is the smallest. *)
Example blocked_item_falls_back :
  calculate_safe_move (Some (100, 100)) [(150, 100, 2500%R)] Scenario.hazard 200
  = Some (50, 100).
Proof.
  unfold calculate_safe_move. rewrite item_loop_none.
  - cbn [fst]. do 2 f_equal.
    change (scan_positions 200) with [50; 70; 90; 110; 130].
    unfold Scenario.hazard. cbn [danger_zones map center danger_radius].
    cbn [scan_loop danger_loop]. rewrite !distance_row.
    change (Z.abs (50 - 125)) with 75. change (Z.abs (70 - 125)) with 55.
    change (Z.abs (90 - 125)) with 35. change (Z.abs (110 - 125)) with 15.
    change (Z.abs (130 - 125)) with 5.
    unfold below. repeat (progress (float_cmp; cbv iota)). reflexivity.
  - intros ix iy area _. apply path_loop_false. exists 0%R. split; [now left|].
    rewrite sample_start. cbn [fst snd]. apply is_safe_false_exists.
    exists (125, 100, (IZR 40 * 1.5)%R). split; [now left|].
    unfold inside. rewrite <- distance_euclid, distance_row.
    change (Z.abs (100 - 125)) with 25. lra.
Qed.

(** The same scene in binary64: the scan keeps the column 50 as well. *)
Example blocked_item_falls_back64 :
  RocketBot64.calculate_safe_move (Some (100, 100)) [(150, 100, 2500%R)]
                                  Scenario.hazard 200
  = Some (50, 100).
Proof.
  unfold RocketBot64.calculate_safe_move. rewrite item_loop_none.
  - cbn [fst]. vm_compute. reflexivity.
  - intros ix iy area _. apply path_loop_false. exists 0%R. split; [now left|].
    rewrite sample_start. cbn [fst snd]. apply is_safe_false_exists.
    exists (125, 100, (IZR 40 * 1.5)%R). split; [now left|].
    unfold inside. rewrite <- distance_euclid, distance_row.
    change (Z.abs (100 - 125)) with 25. lra.
Qed.

(** ** The integer deciders agree with the planner *)

Section ExactFacts.
Import Exact.

Lemma np_int_quarters (n : Z) : np_int (IZR n / 4) = Z.quot n 4.
Proof.
  pose proof (Z.quot_rem' n 4) as Hn.
  assert (Hr : IZR n = (4 * IZR (Z.quot n 4) + IZR (Z.rem n 4))%R).
  { rewrite Hn at 1. rewrite plus_IZR, mult_IZR. reflexivity. }
  unfold np_int. destruct (Rle_dec 0 (IZR n / 4)) as [Hpos | Hneg].
  - assert (0 <= n) by (apply le_IZR; lra).
    pose proof (Z.rem_bound_pos n 4 ltac:(lia) ltac:(lia)) as [Hlo Hhi].
    apply IZR_le in Hlo. apply IZR_lt in Hhi.
    symmetry. apply Int_part_spec. lra.
  - assert (n <= 0) by (apply le_IZR; lra).
    pose proof (Z.rem_bound_pos_neg n 4 ltac:(lia) ltac:(lia)) as [Hlo Hhi].
    apply IZR_lt in Hlo. apply IZR_le in Hhi. rewrite opp_IZR in Hlo.
    assert (E : - Z.quot n 4 = Int_part (- (IZR n / 4))).
    { apply Int_part_spec. rewrite opp_IZR. lra. }
    lia.
Qed.

Lemma sample_quarters (rx ry ix iy k : Z) (t : R) :
  t = (IZR k / 4)%R -> sample rx ry ix iy t = sample_z rx ry ix iy k.
Proof.
  intros ->. unfold sample, sample_z.
  rewrite <- !np_int_quarters. f_equal; f_equal;
    rewrite plus_IZR, !mult_IZR; field.
Qed.

Lemma within_spec (d2 r : Z) :
  0 <= d2 -> Rltb (np_sqrt d2) (IZR r * 1.5) = within d2 r.
Proof.
  intros Hd. unfold within, np_sqrt.
  assert (H0 : (0 <= IZR d2)%R) by now apply IZR_le.
  destruct (0 <? r) eqn:Er; cbn [andb].
  - apply Z.ltb_lt in Er. assert (Hr : (0 < IZR r)%R) by now apply IZR_lt.
    destruct (4 * d2 <? 9 * (r * r)) eqn:E.
    + apply Z.ltb_lt in E. apply IZR_lt in E. rewrite !mult_IZR in E.
      apply Rltb_true. apply Rsqr_incrst_0; [|apply sqrt_pos | lra].
      rewrite Rsqr_sqrt by exact H0. unfold Rsqr. lra.
    + apply Z.ltb_ge in E. apply IZR_le in E. rewrite !mult_IZR in E.
      apply Rltb_false. apply Rsqr_incr_0; [|lra | apply sqrt_pos].
      rewrite Rsqr_sqrt by exact H0. unfold Rsqr. lra.
  - apply Z.ltb_ge in Er. assert (Hr : (IZR r <= 0)%R) by now apply IZR_le.
    apply Rltb_false. pose proof (sqrt_pos (IZR d2)). lra.
Qed.

Lemma is_safe_exact (fireballs : list fireball) (x y : Z) :
  is_safe (danger_zones fireballs) x y = is_safe_z fireballs x y.
Proof.
  induction fireballs as [|fb rest IH]; simpl; [reflexivity|].
  destruct (center fb) as [dx dy]. unfold distance.
  rewrite within_spec by nia. now rewrite IH.
Qed.

Lemma path_safe_exact (fireballs : list fireball) (rx ry ix iy : Z) :
  path_safe (danger_zones fireballs) rx ry ix iy = path_safe_z fireballs rx ry ix iy.
Proof.
  unfold path_safe, path_safe_z, linspace_0_1_5. cbn [path_loop forallb].
  rewrite (sample_quarters rx ry ix iy 0) by lra.
  rewrite (sample_quarters rx ry ix iy 1) by lra.
  rewrite (sample_quarters rx ry ix iy 2) by lra.
  rewrite (sample_quarters rx ry ix iy 3) by lra.
  rewrite (sample_quarters rx ry ix iy 4) by lra.
  repeat match goal with
         | |- context [sample_z ?a ?b ?c ?d ?k] =>
             destruct (sample_z a b c d k) as [? ?]
         end.
  rewrite !is_safe_exact.
  repeat match goal with
         | |- context [is_safe_z ?f ?a ?b] => destruct (is_safe_z f a b)
         end; reflexivity.
Qed.

(** From (100, 100), inside the zone of the fireball, no item is path-safe;
    from (30, 100), outside it, the item at (35, 300) is. *)
Example path_safe_computed :
  path_safe (danger_zones Scenario.hazard) 100 100 150 100 = false
  /\ path_safe (danger_zones Scenario.hazard) 100 100 100 300 = false
  /\ path_safe (danger_zones Scenario.hazard) 30 100 35 300 = true.
Proof.
  rewrite !path_safe_exact. repeat split; vm_compute; reflexivity.
Qed.

End ExactFacts.

(** * Further properties of the two bots *)

(** ** The first accepted element of a sorted list *)

Section FindSorted.
Context {A : Type}.
Variable leb : A -> A -> bool.
Variable ok : A -> bool.
Hypothesis leb_total : forall a b, leb a b = false -> leb b a = true.
Hypothesis leb_trans : forall a b c, leb a b = true -> leb b c = true -> leb a c = true.

Lemma find_insert_sorted (x : A) (l : list A) :
  StronglySorted (fun a b => leb a b = true) l ->
  find ok (insert_sorted leb x l)
  = if ok x then
      match find ok l with
      | None => Some x
      | Some m => if leb x m then Some x else Some m
      end
    else find ok l.
Proof.
  induction l as [|y l IH]; intros Hs; simpl.
  - now destruct (ok x).
  - inversion Hs as [|? ? Hl Hy]; subst.
    destruct (leb x y) eqn:Exy; simpl.
    + destruct (ok x) eqn:Ex; [|reflexivity].
      destruct (ok y) eqn:Ey; [now rewrite Exy|].
      destruct (find ok l) as [m|] eqn:Em; [|reflexivity].
      apply find_some in Em. destruct Em as [Hin _].
      rewrite Forall_forall in Hy. now rewrite (leb_trans _ _ _ Exy (Hy m Hin)).
    + destruct (ok y) eqn:Ey.
      * destruct (ok x); [now rewrite Exy | reflexivity].
      * now apply IH.
Qed.

Lemma find_py_sorted_cons (x : A) (l : list A) :
  find ok (py_sorted leb (x :: l))
  = if ok x then
      match find ok (py_sorted leb l) with
      | None => Some x
      | Some m => if leb x m then Some x else Some m
      end
    else find ok (py_sorted leb l).
Proof.
  simpl. apply find_insert_sorted. now apply py_sorted_sorted.
Qed.

Lemma find_py_sorted_none (l : list A) :
  find ok (py_sorted leb l) = None <-> forall c, In c l -> ok c = false.
Proof.
  split.
  - intros H c Hin. apply (find_none _ _ H). now apply py_sorted_In.
  - intros H. destruct (find ok (py_sorted leb l)) as [c|] eqn:E; [|reflexivity].
    apply find_some in E. destruct E as [Hin Hc].
    apply py_sorted_In in Hin. rewrite (H c Hin) in Hc. discriminate.
Qed.

(** The first accepted element of the sorted list, in terms of the list
    before sorting: it beats the accepted elements before it strictly and
    is not beaten by the accepted elements after it. *)
Lemma find_py_sorted_spec (l : list A) :
  forall c, find ok (py_sorted leb l) = Some c ->
            exists before after,
              l = before ++ c :: after
              /\ ok c = true
              /\ (forall c', In c' before -> ok c' = true -> leb c' c = false)
              /\ (forall c', In c' after -> ok c' = true -> leb c c' = true).
Proof.
  induction l as [|x l IH]; intros c; [discriminate|].
  rewrite find_py_sorted_cons. destruct (ok x) eqn:Ex.
  - destruct (find ok (py_sorted leb l)) as [m|] eqn:Em.
    + destruct (IH m eq_refl) as (bef & aft & -> & Hm & Hbef & Haft).
      destruct (leb x m) eqn:Exm; intros [= <-].
      * exists [], (bef ++ m :: aft). repeat split; auto; [intros ? []|].
        intros c' Hin Hc'. apply in_app_or in Hin. destruct Hin as [Hin | [<- | Hin]].
        -- eapply leb_trans; [exact Exm | apply leb_total; now apply Hbef].
        -- exact Exm.
        -- eapply leb_trans; [exact Exm | now apply Haft].
      * exists (x :: bef), aft. repeat split; auto.
        intros c' [<- | Hin] Hc'; [exact Exm | now apply Hbef].
    + intros [= <-]. exists [], l. repeat split; auto; [intros ? []|].
      intros c' Hin Hc'. rewrite find_py_sorted_none in Em.
      rewrite (Em c' Hin) in Hc'. discriminate.
  - intros H. destruct (IH c H) as (bef & aft & -> & Hc & Hbef & Haft).
    exists (x :: bef), aft. repeat split; auto.
    intros c' [<- | Hin] Hc'; [congruence | now apply Hbef].
Qed.

End FindSorted.

(** ** Which contour is the rocket *)

Lemma area_desc_total (a b : contour) : area_desc a b = false -> area_desc b a = true.
Proof.
  unfold area_desc. rewrite Rgeb_false, Rgeb_true. lra.
Qed.

Lemma area_desc_trans (a b c : contour) :
  area_desc a b = true -> area_desc b c = true -> area_desc a c = true.
Proof.
  unfold area_desc. rewrite !Rgeb_true. lra.
Qed.

Lemma rocket_likeb_true (c : contour) : rocket_likeb c = true <-> rocket_like c.
Proof.
  unfold rocket_likeb, rocket_like. rewrite !andb_true_iff, !Rltb_true. tauto.
Qed.

Lemma rocket_loop_find (contours : list contour) :
  rocket_loop contours = option_map moment_centroid (find rocket_likeb contours).
Proof.
  induction contours as [|c rest IH]; simpl; [reflexivity|].
  unfold rocket_likeb at 1.
  destruct (Rltb 500 (contourArea c) && Rltb (contourArea c) 10000); simpl; [|exact IH].
  destruct (Rltb 0 (m00 c)); [reflexivity | exact IH].
Qed.

(** X1.  [find_rocket] takes the accepted contour (area strictly between
    500 and 10000, m00 positive) of the largest area, the earliest one in
    the contour list among equally large ones, and stores and returns its
    centroid; it keeps the stored position exactly when no contour is
    accepted. *)
Theorem find_rocket_takes_largest (rocket_pos : option (Z * Z)) (contours : list contour) :
  ((forall c, In c contours -> ~ rocket_like c) ->
   find_rocket rocket_pos contours = (rocket_pos, rocket_pos))
  /\ ((exists c, In c contours /\ rocket_like c) ->
      exists before c after,
        contours = before ++ c :: after
        /\ rocket_like c
        /\ find_rocket rocket_pos contours
           = (Some (moment_centroid c), Some (moment_centroid c))
        /\ (forall c', In c' before -> rocket_like c' ->
                       (contourArea c' < contourArea c)%R)
        /\ (forall c', In c' after -> rocket_like c' ->
                       (contourArea c' <= contourArea c)%R)).
Proof.
  unfold find_rocket. rewrite rocket_loop_find. split.
  - intros Hnone.
    assert (E : find rocket_likeb (py_sorted area_desc contours) = None).
    { apply find_py_sorted_none. intros c Hin.
      destruct (rocket_likeb c) eqn:E; [|reflexivity].
      apply rocket_likeb_true in E. now elim (Hnone c Hin). }
    now rewrite E.
  - intros (c0 & Hin0 & Hc0).
    destruct (find rocket_likeb (py_sorted area_desc contours)) as [c|] eqn:E.
    + destruct (find_py_sorted_spec area_desc rocket_likeb area_desc_total area_desc_trans
                  contours c E) as (bef & aft & Hsplit & Hc & Hbef & Haft).
      exists bef, c, aft. simpl. repeat split; auto; try (now apply rocket_likeb_true).
      * intros c' Hin Hc'. apply rocket_likeb_true in Hc'.
        specialize (Hbef c' Hin Hc'). unfold area_desc in Hbef.
        now apply Rgeb_false in Hbef.
      * intros c' Hin Hc'. apply rocket_likeb_true in Hc'.
        specialize (Haft c' Hin Hc'). unfold area_desc in Haft.
        now apply Rgeb_true in Haft.
    + rewrite find_py_sorted_none in E. apply rocket_likeb_true in Hc0.
      rewrite (E c0 Hin0) in Hc0. discriminate.
Qed.

(** ** The aspect tests on integers *)

Lemma Rdiv_lt_cross (a w d : R) :
  (0 < d)%R -> ((a < w / d)%R <-> (a * d < w)%R) /\ ((w / d < a)%R <-> (w < a * d)%R).
Proof.
  intros Hd. assert (E : w = (w / d * d)%R) by (field; lra).
  revert E. generalize (w / d)%R. intros q ->. repeat split; intros; nra.
Qed.

Lemma Rltb_Zltb (x y : R) (a b : Z) :
  ((x < y)%R <-> (IZR a < IZR b)%R) -> Rltb x y = (a <? b).
Proof.
  intros H. destruct (a <? b) eqn:E.
  - apply Rltb_true, H, IZR_lt. now apply Z.ltb_lt.
  - apply Rltb_false. apply Z.ltb_ge in E. apply IZR_le in E.
    destruct (Rlt_dec x y) as [Hlt | Hge]; [apply H in Hlt|]; lra.
Qed.

Lemma aspect_items (w h : Z) :
  (let aspect_ratio := if 0 <? h then (IZR w / IZR h)%R else 0%R in
   Rltb 0.5 aspect_ratio && Rltb aspect_ratio 2.0)
  = roughly_square w h.
Proof.
  unfold roughly_square. cbv zeta. destruct (0 <? h) eqn:Eh; cbn [andb].
  - apply Z.ltb_lt, IZR_lt in Eh.
    destruct (Rdiv_lt_cross 0.5 (IZR w) (IZR h) Eh) as [H1 _].
    destruct (Rdiv_lt_cross 2.0 (IZR w) (IZR h) Eh) as [_ H2].
    f_equal; apply Rltb_Zltb; rewrite ?mult_IZR; [rewrite H1 | rewrite H2]; lra.
  - rewrite (proj2 (Rltb_false 0.5 0)) by lra. reflexivity.
Qed.

Lemma aspect_red_boxes (w h : Z) :
  (let aspect_ratio := if 0 <? h then (IZR w / IZR h)%R else 0%R in
   Rltb 0.8 aspect_ratio && Rltb aspect_ratio 1.2)
  = nearly_square w h.
Proof.
  unfold nearly_square. cbv zeta. destruct (0 <? h) eqn:Eh; cbn [andb].
  - apply Z.ltb_lt, IZR_lt in Eh.
    destruct (Rdiv_lt_cross 0.8 (IZR w) (IZR h) Eh) as [H1 _].
    destruct (Rdiv_lt_cross 1.2 (IZR w) (IZR h) Eh) as [_ H2].
    f_equal; apply Rltb_Zltb; rewrite ?mult_IZR; [rewrite H1 | rewrite H2]; lra.
  - rewrite (proj2 (Rltb_false 0.8 0)) by lra. reflexivity.
Qed.

(** X2.  [find_items] keeps, in the order of the contour list, exactly the
    contours whose area is strictly between 1000 and 20000 and whose
    bounding box has a positive height with h < 2 w and w < 2 h, and
    records for each the centre of its bounding box and its area; so no
    item has an empty or a flat box. *)
Theorem find_items_keeps_roughly_square (contours : list contour) :
  find_items contours
  = map (fun c => let '(x, y, w, h) := boundingRect c in
                  (x + w / 2, y + h / 2, contourArea c))
        (filter (fun c => Rltb 1000 (contourArea c) && Rltb (contourArea c) 20000
                          && (let '(_, _, w, h) := boundingRect c in roughly_square w h))
                contours)
  /\ (forall cx cy area,
         In (cx, cy, area) (find_items contours) ->
         exists c x y w h,
           In c contours /\ boundingRect c = (x, y, w, h)
           /\ 0 < w < 2 * h /\ 0 < h < 2 * w
           /\ x <= cx < x + w /\ y <= cy < y + h).
Proof.
  assert (E : find_items contours
              = map (fun c => let '(x, y, w, h) := boundingRect c in
                              (x + w / 2, y + h / 2, contourArea c))
                    (filter (fun c => Rltb 1000 (contourArea c)
                                      && Rltb (contourArea c) 20000
                                      && (let '(_, _, w, h) := boundingRect c in
                                          roughly_square w h))
                            contours)).
  { induction contours as [|c rest IH]; simpl; [reflexivity|].
    destruct (Rltb 1000 (contourArea c) && Rltb (contourArea c) 20000);
      cbn [andb]; [|exact IH].
    destruct (boundingRect c) as [[[x y] w] h] eqn:Eb.
    pose proof (aspect_items w h) as Ha. cbv zeta in Ha. rewrite Ha.
    destruct (roughly_square w h); simpl; [|exact IH].
    rewrite Eb. now rewrite IH. }
  split; [exact E|].
  intros cx cy area Hin. rewrite E in Hin. apply in_map_iff in Hin.
  destruct Hin as (c & Hc & Hf). apply filter_In in Hf. destruct Hf as [Hin Hok].
  destruct (boundingRect c) as [[[x y] w] h] eqn:Eb.
  apply andb_prop in Hok. destruct Hok as [_ Hsq]. unfold roughly_square in Hsq.
  apply andb_prop in Hsq. destruct Hsq as [Hsq H3]. apply andb_prop in Hsq.
  destruct Hsq as [H1 H2]. apply Z.ltb_lt in H1, H2, H3.
  inversion Hc; subst. exists c, x, y, w, h.
  assert (0 <= w / 2 < w) by (split; [apply Z.div_pos | apply Z.div_lt_upper_bound]; lia).
  assert (0 <= h / 2 < h) by (split; [apply Z.div_pos | apply Z.div_lt_upper_bound]; lia).
  repeat split; auto; lia.
Qed.

(** ** Fireballs and their danger zones *)

Lemma find_fireballs_In (contours : list contour) (c : contour) (x y w h : Z) :
  In c contours -> (2000 < contourArea c)%R -> boundingRect c = (x, y, w, h) ->
  In {| center := (x + w / 2, y + h / 2); bounds := (x, y, w, h);
        danger_radius := Z.max w h |} (find_fireballs contours).
Proof.
  intros Hin Ha Eb. induction contours as [|c0 rest IH]; [destruct Hin|].
  simpl. destruct Hin as [-> | Hin].
  - rewrite (proj2 (Rltb_true _ _) Ha), Eb. now left.
  - destruct (Rltb 2000 (contourArea c0)); [|now apply IH].
    destruct (boundingRect c0) as [[[? ?] ?] ?]. right. now apply IH.
Qed.

(** X3.  The danger zone of a detected fireball covers its bounding box:
    every pixel of the box of a contour that [find_fireballs] accepts is
    unsafe for the planner. *)
Theorem fireball_box_is_unsafe
        (contours : list contour) (c : contour) (x y w h px py : Z) :
  In c contours -> (2000 < contourArea c)%R -> boundingRect c = (x, y, w, h) ->
  0 < w -> 0 < h ->
  x <= px <= x + w -> y <= py <= y + h ->
  is_safe (danger_zones (find_fireballs contours)) px py = false.
Proof.
  intros Hin Ha Eb Hw Hh Hx Hy.
  apply is_safe_false_exists.
  exists (x + w / 2, y + h / 2, (IZR (Z.max w h) * 1.5)%R). split.
  - unfold danger_zones. apply in_map_iff.
    exists {| center := (x + w / 2, y + h / 2); bounds := (x, y, w, h);
              danger_radius := Z.max w h |}.
    split; [reflexivity | now apply (find_fireballs_In contours c)].
  - unfold inside. rewrite <- distance_euclid. apply Rltb_true.
    unfold distance. rewrite within_spec by nia.
    unfold Exact.within. apply andb_true_intro. split; [apply Z.ltb_lt; lia|].
    apply Z.ltb_lt.
    pose proof (Z.div_mod w 2 ltac:(lia)). pose proof (Z.mod_pos_bound w 2 ltac:(lia)).
    pose proof (Z.div_mod h 2 ltac:(lia)). pose proof (Z.mod_pos_bound h 2 ltac:(lia)).
    set (m := Z.max w h). assert (Hm : w <= m /\ h <= m /\ 1 <= m) by (unfold m; lia).
    set (a := px - (x + w / 2)). set (b := py - (y + h / 2)).
    assert (Ha2 : - (m + 1) <= 2 * a <= m + 1) by (unfold a; lia).
    assert (Hb2 : - (m + 1) <= 2 * b <= m + 1) by (unfold b; lia).
    assert (4 * (a * a) <= (m + 1) * (m + 1)) by nia.
    assert (4 * (b * b) <= (m + 1) * (m + 1)) by nia.
    nia.
Qed.

Lemma fireball_box_is_unsafe_witness :
  is_safe (danger_zones (find_fireballs [Scenario.triangle])) 91 0 = false.
Proof.
  apply (fireball_box_is_unsafe [Scenario.triangle] Scenario.triangle 0 0 91 91 91 0).
  - now left.
  - unfold Scenario.triangle. simpl. lra.
  - reflexivity.
  - lia.
  - lia.
  - lia.
  - lia.
Defined.

(** ** What the planner returns *)

Lemma sample_end (rx ry ix iy : Z) : sample rx ry ix iy 1 = (ix, iy).
Proof.
  unfold sample. f_equal; apply np_int_eq; rewrite minus_IZR; lra.
Qed.

Lemma path_safe_ends (zones : list zone) (rx ry ix iy : Z) :
  path_safe zones rx ry ix iy = true ->
  is_safe zones rx ry = true /\ is_safe zones ix iy = true.
Proof.
  intros Hp.
  assert (H : forall t, In t linspace_0_1_5 ->
                        is_safe zones (fst (sample rx ry ix iy t))
                                (snd (sample rx ry ix iy t)) = true).
  { intros t Hin.
    destruct (is_safe zones (fst (sample rx ry ix iy t)) (snd (sample rx ry ix iy t)))
      eqn:E; [reflexivity|].
    assert (path_safe zones rx ry ix iy = false)
      by (apply path_loop_false; exists t; split; assumption).
    congruence. }
  split.
  - specialize (H 0%R (or_introl eq_refl)). now rewrite sample_start in H.
  - assert (Hin : In 1%R linspace_0_1_5) by (simpl; tauto).
    specialize (H 1%R Hin). now rewrite sample_end in H.
Qed.

(** X4.  When some item is path-safe, the target that
    [calculate_safe_move] returns is the centre of a path-safe item, and
    both that target and the rocket position are safe points: the planner
    never steers to an item that lies inside a danger zone. *)
Theorem item_target_is_safe
        (rx ry : Z) (items : list item) (fireballs : list fireball) (frame_width : Z) :
  (exists ix iy area, In (ix, iy, area) items
                      /\ path_safe (danger_zones fireballs) rx ry ix iy = true) ->
  exists tx ty area,
    calculate_safe_move (Some (rx, ry)) items fireballs frame_width = Some (tx, ty)
    /\ In (tx, ty, area) items
    /\ is_safe (danger_zones fireballs) tx ty = true
    /\ is_safe (danger_zones fireballs) rx ry = true.
Proof.
  intros (kx & ky & ka & Hin & Hp).
  destruct (item_loop_spec (danger_zones fireballs) rx ry items None Inf)
    as [[_ Hall] | (before & ix & iy & area & after & Hsplit & Hpi & Heq & _)].
  - specialize (Hall kx ky ka Hin Hp). discriminate.
  - exists ix, iy, area. destruct (path_safe_ends _ _ _ _ _ Hpi) as [Hr Hi].
    repeat split; auto.
    + unfold calculate_safe_move. now rewrite Heq.
    + rewrite Hsplit. apply in_elt.
Qed.

Lemma item_target_is_safe_witness :
  exists tx ty area,
    calculate_safe_move (Some (30, 100)) [(35, 300, 2500%R)] Scenario.hazard 200
    = Some (tx, ty)
    /\ In (tx, ty, area) [(35, 300, 2500%R)]
    /\ is_safe (danger_zones Scenario.hazard) tx ty = true
    /\ is_safe (danger_zones Scenario.hazard) 30 100 = true.
Proof.
  apply (item_target_is_safe 30 100 [(35, 300, 2500%R)] Scenario.hazard 200).
  exists 35, 300, 2500%R. split; [now left|].
  rewrite path_safe_exact. vm_compute. reflexivity.
Defined.

Lemma scan_positions_narrow (frame_width : Z) :
  frame_width <= 100 -> scan_positions frame_width = [].
Proof.
  intros Hw. unfold scan_positions, py_range.
  assert (E : (frame_width - 50 - 50 + 20 - 1) / 20 <= 0).
  { assert ((frame_width - 50 - 50 + 20 - 1) / 20 < 1); [|lia].
    apply Z.div_lt_upper_bound; lia. }
  destruct ((frame_width - 50 - 50 + 20 - 1) / 20); try reflexivity.
  pose proof (Pos2Z.is_pos p). lia.
Qed.

(** The result of the horizontal scan when it visits a position. *)
Lemma scan_result (zones : list zone) (rx ry frame_width : Z) :
  (exists x, scanned frame_width x) ->
  exists sx,
    fst (scan_loop zones ry (scan_positions frame_width) rx Inf) = sx
    /\ scanned frame_width sx
    /\ forall x, scanned frame_width x ->
                 (danger_score zones sx ry <= danger_score zones x ry)%R
                 /\ (x < sx -> (danger_score zones sx ry < danger_score zones x ry)%R).
Proof.
  intros (x0 & Hx0).
  destruct (scan_loop_spec zones ry (scan_positions frame_width) rx Inf)
    as [[_ Hall] | (before & sx & after & Hsplit & Heq & _ & Hbef & Haft)].
  - apply scan_positions_scanned in Hx0. specialize (Hall x0 Hx0). discriminate.
  - exists sx. rewrite Heq. split; [reflexivity|].
    assert (Hsx : In sx (scan_positions frame_width)) by (rewrite Hsplit; apply in_elt).
    split; [now apply scan_positions_scanned|].
    destruct (py_range_split_order 50 (frame_width - 50) 20 sx before after)
      as [Hlt Hgt]; [lia | exact Hsplit |].
    intros x Hx. apply scan_positions_scanned in Hx. rewrite Hsplit in Hx.
    apply in_app_or in Hx. destruct Hx as [Hx | [<- | Hx]].
    + split; [apply Rlt_le|intros _]; now apply Hbef.
    + split; [apply Rle_refl | lia].
    + split; [now apply Haft|]. specialize (Hgt x Hx). lia.
Qed.

(** X5.  [calculate_safe_move] returns no target exactly when the rocket
    position is unknown.  With a position, the target is the centre of a
    path-safe item, or it lies on the rocket's row, at a scanned position
    or, when the scan visits none, at the rocket's own column. *)
Theorem planner_target_shape
        (rocket_pos : option (Z * Z)) (items : list item)
        (fireballs : list fireball) (frame_width : Z) :
  (calculate_safe_move rocket_pos items fireballs frame_width = None
   <-> rocket_pos = None)
  /\ (forall rx ry tx ty,
         rocket_pos = Some (rx, ry) ->
         calculate_safe_move rocket_pos items fireballs frame_width = Some (tx, ty) ->
         (exists area, In (tx, ty, area) items
                       /\ path_safe (danger_zones fireballs) rx ry tx ty = true)
         \/ (ty = ry /\ scanned frame_width tx)
         \/ (ty = ry /\ tx = rx /\ frame_width <= 100)).
Proof.
  split.
  - destruct rocket_pos as [[rx ry]|]; simpl; [|tauto].
    destruct (fst (item_loop _ _ _ _ _ _)); split; discriminate.
  - intros rx ry tx ty -> Hres. unfold calculate_safe_move in Hres.
    destruct (item_loop_spec (danger_zones fireballs) rx ry items None Inf)
      as [[Heq _] | (before & ix & iy & area & after & Hsplit & Hpi & Heq & _)].
    + rewrite Heq in Hres. cbn [fst] in Hres. right.
      destruct (Z_le_gt_dec frame_width 100) as [Hn | Hw].
      * right. rewrite (scan_positions_narrow _ Hn) in Hres. simpl in Hres.
        inversion Hres; subst. auto.
      * left. destruct (scan_result (danger_zones fireballs) rx ry frame_width)
          as (sx & Hsx & Hscan & _).
        { exists 50, 0. repeat split; lia. }
        rewrite Hsx in Hres. inversion Hres; subst. auto.
    + rewrite Heq in Hres. cbn [fst] in Hres. inversion Hres; subst. left.
      exists area. split; [apply in_elt | exact Hpi].
Qed.

(** X6.  In a frame at most 100 pixels wide the scan visits no position;
    when no item is path-safe the target is then the rocket's own
    position. *)
Theorem narrow_frame_stays_put
        (rx ry : Z) (items : list item) (fireballs : list fireball) (frame_width : Z) :
  frame_width <= 100 ->
  (forall ix iy area, In (ix, iy, area) items ->
                      path_safe (danger_zones fireballs) rx ry ix iy = false) ->
  calculate_safe_move (Some (rx, ry)) items fireballs frame_width = Some (rx, ry).
Proof.
  intros Hw Hnone. unfold calculate_safe_move.
  rewrite item_loop_none by exact Hnone. cbn [fst].
  now rewrite scan_positions_narrow.
Qed.

Lemma narrow_frame_stays_put_witness :
  calculate_safe_move (Some (40, 60)) [] Scenario.hazard 100 = Some (40, 60).
Proof.
  apply narrow_frame_stays_put; [lia | intros ? ? ? []].
Defined.

Lemma danger_score_nonneg (zones : list zone) (x y : Z) : (0 <= danger_score zones x y)%R.
Proof.
  induction zones as [|[[dx dy] radius] rest IH]; simpl; [lra|].
  pose proof (Rmax_l 0 (radius * 2 - euclid x y dx dy)). lra.
Qed.

Lemma danger_score_zero_safe (zones : list zone) (x y : Z) :
  danger_score zones x y = 0%R -> is_safe zones x y = true.
Proof.
  intros H0. apply is_safe_true_forall.
  induction zones as [|[[dx dy] radius] rest IH]; [intros ? []|].
  simpl in H0.
  pose proof (Rmax_l 0 (radius * 2 - euclid x y dx dy)) as Hl.
  pose proof (Rmax_r 0 (radius * 2 - euclid x y dx dy)) as Hr.
  pose proof (danger_score_nonneg rest x y) as Hn.
  intros z [<- | Hin].
  - unfold inside. rewrite <- distance_euclid in *.
    pose proof (distance_nonneg x y dx dy). lra.
  - apply IH; [lra | exact Hin].
Qed.

(** X7.  When no item is path-safe and some scanned position on the
    rocket's row has danger score 0 (it is at least twice the radius away
    from every fireball), the target is the leftmost such position, and
    it is a safe point. *)
Theorem fallback_reaches_clear_position
        (rx ry : Z) (items : list item) (fireballs : list fireball) (frame_width : Z) :
  (forall ix iy area, In (ix, iy, area) items ->
                      path_safe (danger_zones fireballs) rx ry ix iy = false) ->
  (exists x, scanned frame_width x /\ danger_score (danger_zones fireballs) x ry = 0%R) ->
  exists sx,
    calculate_safe_move (Some (rx, ry)) items fireballs frame_width = Some (sx, ry)
    /\ scanned frame_width sx
    /\ danger_score (danger_zones fireballs) sx ry = 0%R
    /\ is_safe (danger_zones fireballs) sx ry = true
    /\ forall x, scanned frame_width x -> x < sx ->
                 (0 < danger_score (danger_zones fireballs) x ry)%R.
Proof.
  intros Hnone (x0 & Hx0 & Hz).
  destruct (scan_result (danger_zones fireballs) rx ry frame_width)
    as (sx & Hsx & Hscan & Hmin); [now exists x0|].
  assert (H0 : danger_score (danger_zones fireballs) sx ry = 0%R).
  { pose proof (proj1 (Hmin x0 Hx0)). pose proof (danger_score_nonneg (danger_zones fireballs) sx ry).
    lra. }
  exists sx. repeat split; auto.
  - unfold calculate_safe_move. rewrite item_loop_none by exact Hnone.
    cbn [fst]. now rewrite Hsx.
  - now apply danger_score_zero_safe.
  - intros x Hx Hlt. pose proof (proj2 (Hmin x Hx) Hlt). lra.
Qed.

Lemma fallback_reaches_clear_position_witness :
  exists sx,
    calculate_safe_move (Some (120, 80)) [] [] 200 = Some (sx, 80)
    /\ scanned 200 sx
    /\ danger_score (danger_zones []) sx 80 = 0%R
    /\ is_safe (danger_zones []) sx 80 = true
    /\ forall x, scanned 200 x -> x < sx -> (0 < danger_score (danger_zones []) x 80)%R.
Proof.
  apply (fallback_reaches_clear_position 120 80 [] [] 200).
  - intros ? ? ? [].
  - exists 50. split; [exists 0; repeat split; lia | reflexivity].
Defined.

(** ** Invariants of the run loop of the steering bot *)

Section LoopInvariants.
Import RocketRun RocketSetup.

Variables I E : bot -> Prop.
(** The ticks that are considered. *)
Variable P : tick -> Prop.
Hypothesis I_E : forall s, I s -> E s.
Hypothesis I_rocket_pos : forall p s, I s -> I (set_rocket_pos p s).
Hypothesis I_move : forall x y s, I s -> I (do_pointer (MoveTo x y) s).
Hypothesis I_press :
  forall s, I s -> mouse_pressed s = false ->
            I (set_mouse_pressed true (do_pointer MouseDown s)).
Hypothesis E_down :
  forall t s, P t -> ~ press_completes t -> I s -> mouse_pressed s = false ->
              E (do_pointer MouseDown s).

Lemma keeps_ret {A : Type} (a : A) : keeps I E (ret a).
Proof.
  intros s Hs. exact Hs.
Qed.

Lemma keeps_throw {A : Type} (e : exn) : keeps I E (@throw A e).
Proof.
  intros s Hs. now apply I_E.
Qed.

Lemma keeps_call (t : tick) (here : site) : keeps I E (call t here).
Proof.
  unfold call. destruct (raised t) as [[e st]|]; [|apply keeps_ret].
  destruct (site_eqb st here); [apply keeps_throw | apply keeps_ret].
Qed.

Lemma keeps_bind {A B : Type} (m : M A) (f : A -> M B) :
  keeps I E m -> (forall a, keeps I E (f a)) -> keeps I E (bind m f).
Proof.
  intros Hm Hf s Hs. unfold bind. specialize (Hm s Hs).
  destruct (m s) as [[a|e] s']; [now apply Hf | exact Hm].
Qed.

Lemma keeps_move_rocket (t : tick) (target_x : Z) (rocket_pos : option (Z * Z)) :
  P t -> keeps I E (move_rocket t target_x rocket_pos).
Proof.
  intros Ht s Hs. unfold move_rocket.
  destruct (game_region s) as [reg|]; [|exact Hs].
  destruct rocket_pos as [[r0 r1]|]; [|exact Hs].
  destruct (mouse_pressed s) eqn:Em; cbn [negb];
    unfold bind, call, modify, ret, throw;
    destruct (raised t) as [[e st]|] eqn:Er; [destruct st| |destruct st|]; simpl;
    auto using I_E, I_move.
  apply (E_down t); auto using I_move.
  intros Hc. exact (Hc e Er).
Qed.

Lemma keeps_capture_game (t : tick) : keeps I E (capture_game t).
Proof.
  intros s Hs. unfold capture_game. destruct (game_region s); [|exact Hs].
  revert s Hs. change (keeps I E (call t CaptureGame ;; ret (Some (grabbed t)))).
  apply keeps_bind; [apply keeps_call | intros _; apply keeps_ret].
Qed.

Lemma keeps_iteration (debug : bool) (t : tick) (target : local_target) :
  P t -> keeps I E (iteration debug t target).
Proof.
  intros Ht. unfold iteration.
  apply keeps_bind; [apply keeps_capture_game | intros [frame|]].
  2: { apply keeps_bind; [apply keeps_call | intros _; apply keeps_ret]. }
  apply keeps_bind; [apply keeps_call | intros _].
  apply keeps_bind; [intros s Hs; exact Hs | intros old].
  destruct (RocketBot.find_rocket old (purple frame)) as [rocket_pos stored].
  apply keeps_bind; [intros s Hs; now apply I_rocket_pos | intros _].
  apply keeps_bind; [apply keeps_call | intros _].
  apply keeps_bind; [apply keeps_call | intros _].
  apply keeps_bind.
  - destruct rocket_pos as [p|]; [|apply keeps_ret].
    apply keeps_bind; [|intros _; apply keeps_ret].
    destruct (RocketBot.calculate_safe_move _ _ _ _);
      [now apply keeps_move_rocket | apply keeps_ret].
  - intros tg. destruct debug.
    + apply keeps_bind; [apply keeps_call | intros _].
      destruct tg; [|apply keeps_throw].
      destruct (quit_key t); [apply keeps_ret|].
      apply keeps_bind; [apply keeps_call | intros _; apply keeps_ret].
    + apply keeps_bind; [apply keeps_call | intros _; apply keeps_ret].
Qed.

Hypothesis I_on_press : forall s, I s -> I (on_press s).

(** The loop ends in a state with the property [I], or with [E] when an
    exception ended it. *)
Lemma loop_keeps (debug : bool) (ticks : list tick) :
  Forall P ticks ->
  forall target s,
    I s ->
    match loop debug ticks target s with
    | (Some (Raised _), s') => E s'
    | (_, s') => I s'
    end.
Proof.
  induction 1 as [|t ticks Ht _ IH]; intros target s Hs; simpl.
  - destruct (running s && negb (emergency_stop s)); exact Hs.
  - destruct (running s && negb (emergency_stop s)); [|exact Hs].
    assert (Hs' : I (if stop_key t then on_press s else s))
      by (destruct (stop_key t); auto).
    pose proof (keeps_iteration debug t target Ht _ Hs') as Hi.
    destruct (iteration debug t target (if stop_key t then on_press s else s))
      as [[[[|] target']|e] s']; [now apply IH | exact Hi | exact Hi].
Qed.

Lemma loop_keeps_weak (debug : bool) (ticks : list tick) (target : local_target) (s : bot) :
  Forall P ticks -> I s -> E (snd (loop debug ticks target s)).
Proof.
  intros Ht Hs. pose proof (loop_keeps debug ticks Ht target s Hs) as H.
  destruct (loop debug ticks target s) as [[[| |e]|] s']; simpl; auto.
Qed.

End LoopInvariants.

Section RunFacts.
Import RocketRun RocketSetup.

Lemma Forall_any (ticks : list tick) : Forall (fun _ => True) ticks.
Proof.
  induction ticks; constructor; auto.
Qed.

Lemma pressed_once_weaken (s : bot) : pressed_once s -> pressed_at_most_once s.
Proof.
  unfold pressed_once, pressed_at_most_once. intros [Hr Hp].
  destruct (mouse_pressed s); rewrite Hp; repeat split; auto; discriminate.
Qed.

Lemma loop_pressed_once (debug : bool) (ticks : list tick) (target : local_target) (s : bot) :
  pressed_once s ->
  match loop debug ticks target s with
  | (Some (Raised _), s') => pressed_at_most_once s'
  | (_, s') => pressed_once s'
  end.
Proof.
  apply (loop_keeps pressed_once pressed_at_most_once (fun _ => True));
    try apply Forall_any; try apply pressed_once_weaken;
    unfold pressed_once, pressed_at_most_once; simpl; auto.
  - intros s0 [Hr Hp] Hm. rewrite Hm in Hp. simpl. split; [exact Hr | now rewrite Hp].
  - intros _ s0 _ _ [Hr Hp] Hm. rewrite Hm in Hp. rewrite Hp, Hm.
    repeat split; auto; discriminate.
Qed.

Lemma loop_consistent (debug : bool) (ticks : list tick) (target : local_target) (s : bot) :
  Forall press_completes ticks ->
  consistent s -> consistent (snd (loop debug ticks target s)).
Proof.
  intros Ht. apply (loop_keeps_weak consistent consistent press_completes); auto.
  - intros s0 _ _. reflexivity.
  - intros t s0 Hp Hn. now elim Hn.
Qed.

(** The [finally] block: what it sends to the pointer. *)
Lemma finally_cases (release : option exn) (s : bot) :
  (mouse_pressed s = false
   /\ finally release s = (Ok tt, set_running false s))
  \/ (mouse_pressed s = true /\ release = None
      /\ finally release s = (Ok tt, do_pointer MouseUp (set_running false s)))
  \/ (mouse_pressed s = true
      /\ exists e, release = Some e
                   /\ finally release s = (Raise e, set_running false s)).
Proof.
  unfold finally, bind, modify, throw, ret. cbn [mouse_pressed set_running].
  destruct (mouse_pressed s); [|now left].
  right. destruct release as [e|]; [right | left]; eauto.
Qed.


Lemma loop_without_region (debug : bool) (ticks : list tick) :
  forall target s,
    game_region s = None ->
    pointer (snd (loop debug ticks target s)) = pointer s
    /\ rocket_pos (snd (loop debug ticks target s)) = rocket_pos s
    /\ mouse_pressed (snd (loop debug ticks target s)) = mouse_pressed s.
Proof.
  induction ticks as [|t ticks IH]; intros target s Hg; simpl.
  - destruct (running s && negb (emergency_stop s)); auto.
  - destruct (running s && negb (emergency_stop s)); [|auto].
    set (s1 := if stop_key t then on_press s else s).
    assert (H1 : game_region s1 = None /\ pointer s1 = pointer s
                 /\ rocket_pos s1 = rocket_pos s /\ mouse_pressed s1 = mouse_pressed s)
      by (unfold s1; destruct (stop_key t); auto).
    destruct H1 as (Hg1 & <- & <- & <-).
    unfold iteration, bind, capture_game. rewrite Hg1.
    unfold call, ret, throw. destruct (raised t) as [[e st]|]; [destruct st|];
      simpl; auto.
Qed.

(** X9.  Without a game region [capture_game] yields no frame and every
    iteration only sleeps: however long the bot runs and however it
    stops, it sends no pointer operation and never looks for the rocket. *)
Theorem no_region_no_pointer
        (debug : bool) (ticks : list tick) (release : option exn) (s : bot) :
  game_region s = None -> mouse_pressed s = false ->
  pointer (snd (run debug ticks release s)) = pointer s
  /\ rocket_pos (snd (run debug ticks release s)) = rocket_pos s.
Proof.
  intros Hg Hm. unfold run.
  destruct (loop_without_region debug ticks None (set_running true s) Hg)
    as (Hp & Hr & Hmp).
  destruct (loop debug ticks None (set_running true s)) as [[ex|] sl]; simpl in *.
  - destruct (finally_cases release sl)
      as [[Em ->] | [(Em & _) | (Em & _)]]; [|congruence|congruence].
    destruct ex as [| |[|]]; auto.
  - auto.
Qed.

Lemma no_region_no_pointer_witness :
  pointer (snd (run false [Scenario.quiet_tick; Scenario.interrupted_tick]
                    (Some OtherException) (init None))) = []
  /\ rocket_pos (snd (run false [Scenario.quiet_tick; Scenario.interrupted_tick]
                          (Some OtherException) (init None))) = None.
Proof.
  apply (no_region_no_pointer false _ _ (init None)); reflexivity.
Defined.

Lemma iteration_flags (debug : bool) (t : tick) (target : local_target) (s : bot) :
  running (snd (iteration debug t target s)) = running s
  /\ emergency_stop (snd (iteration debug t target s)) = emergency_stop s.
Proof.
  pose proof (keeps_iteration
                (fun s' => running s' = running s /\ emergency_stop s' = emergency_stop s)
                (fun s' => running s' = running s /\ emergency_stop s' = emergency_stop s)
                (fun _ => True)) as H.
  specialize (H (fun _ h => h)). simpl in H.
  specialize (H (fun _ _ h => h) (fun _ _ _ h => h) (fun _ h _ => h)
                (fun _ _ _ _ h _ => h) debug t target Logic.I s (conj eq_refl eq_refl)).
  destruct (iteration debug t target s) as [[a|e] s']; exact H.
Qed.

Lemma loop_same_suffix (debug : bool) (l1 l2 : list tick) :
  (forall target s, loop debug l1 target s = loop debug l2 target s) ->
  forall before target s,
    loop debug (before ++ l1) target s = loop debug (before ++ l2) target s.
Proof.
  intros H before. induction before as [|t before IH]; intros target s; [apply H|].
  simpl. destruct (running s && negb (emergency_stop s)); [|reflexivity].
  destruct (iteration debug t target (if stop_key t then on_press s else s))
    as [[[[|] target']|e] s']; auto.
Qed.

Lemma loop_after_stop_key (debug : bool) (t : tick) (rest : list tick)
      (target : local_target) (s : bot) :
  stop_key t = true ->
  loop debug (t :: rest) target s = loop debug [t] target s
  /\ fst (loop debug [t] target s) <> None.
Proof.
  intros Hk. simpl. destruct (running s && negb (emergency_stop s)); [|split; [reflexivity | discriminate]].
  rewrite Hk. destruct (iteration_flags debug t target (on_press s)) as [Hr _].
  destruct (iteration debug t target (on_press s)) as [[[[|] target']|e] s'];
    simpl in *; try (split; [reflexivity | discriminate]).
  assert (E : running s' && negb (emergency_stop s') = false) by now rewrite Hr.
  destruct rest; simpl; rewrite E; split; (reflexivity || discriminate).
Qed.

(** X10.  Once ESC or F12 is pressed during an iteration, that iteration
    is the last one: [run] ends after it, whatever the environment would
    do in later iterations. *)
Theorem stop_key_ends_run
        (debug : bool) (before rest : list tick) (t : tick)
        (release : option exn) (s : bot) :
  stop_key t = true ->
  run debug (before ++ t :: rest) release s = run debug (before ++ [t]) release s
  /\ fst (run debug (before ++ t :: rest) release s) <> None.
Proof.
  intros Hk.
  assert (E : loop debug (before ++ t :: rest) None (set_running true s)
              = loop debug (before ++ [t]) None (set_running true s)).
  { apply loop_same_suffix. intros target s0.
    now destruct (loop_after_stop_key debug t rest target s0 Hk). }
  assert (Hend : forall bef target s0, fst (loop debug (bef ++ [t]) target s0) <> None).
  { induction bef as [|t0 bef IH]; intros target s0.
    - now destruct (loop_after_stop_key debug t [] target s0 Hk).
    - simpl. destruct (running s0 && negb (emergency_stop s0)); [|discriminate].
      destruct (iteration debug t0 target (if stop_key t0 then on_press s0 else s0))
        as [[[[|] target']|e] s']; try discriminate. apply IH. }
  unfold run. rewrite E. split; [reflexivity|].
  specialize (Hend before None (set_running true s)).
  destruct (loop debug (before ++ [t]) None (set_running true s)) as [[ex|] sl];
    [|now elim Hend].
  destruct (finally release sl) as [[[]|e] s2]; [|discriminate].
  destruct ex as [| |[|]]; discriminate.
Qed.

Lemma stop_key_ends_run_witness :
  run false ([Scenario.quiet_tick] ++ Scenario.stop_tick :: [Scenario.failing_tick])
      None (init (Some Scenario.game))
  = run false ([Scenario.quiet_tick] ++ [Scenario.stop_tick]) None
        (init (Some Scenario.game))
  /\ fst (run false ([Scenario.quiet_tick] ++ Scenario.stop_tick :: [Scenario.failing_tick])
              None (init (Some Scenario.game))) <> None.
Proof.
  apply stop_key_ends_run. reflexivity.
Defined.

End RunFacts.

Section FirstFrame.
Import RocketRun RocketSetup.

Lemma find_rocket_none (old : option (Z * Z)) (contours : list contour) :
  (forall c, In c contours -> ~ rocket_like c) ->
  find_rocket old contours = (old, old).
Proof.
  intros Hnone. unfold find_rocket. rewrite rocket_loop_find.
  assert (E : find rocket_likeb (py_sorted area_desc contours) = None).
  { apply find_py_sorted_none. intros c Hin. destruct (rocket_likeb c) eqn:E; [|reflexivity].
    apply rocket_likeb_true in E. now elim (Hnone c Hin). }
  now rewrite E.
Qed.

(** X11.  In debug mode, when the first captured frame shows no contour
    that [find_rocket] accepts, the local variable [target] is still
    unbound when the debug part reads it: [run] is left by an exception
    (not a keyboard interrupt) in its first iteration, before any pointer
    operation. *)
Theorem debug_run_fails_without_rocket
        (reg : region) (t : tick) (rest : list tick) (release : option exn) :
  raised t = None ->
  (forall c, In c (purple (grabbed t)) -> ~ rocket_like c) ->
  fst (run true (t :: rest) release (init (Some reg))) = Some (Propagated OtherException)
  /\ pointer (snd (run true (t :: rest) release (init (Some reg)))) = []
  /\ mouse_pressed (snd (run true (t :: rest) release (init (Some reg)))) = false.
Proof.
  intros Hq Hnone.
  assert (E : forall s, game_region s = Some reg -> rocket_pos s = None ->
                        iteration true t None s
                        = (Raise OtherException, set_rocket_pos None s)).
  { intros s Hg Hr. unfold iteration, bind, capture_game, call. rewrite Hg, Hq.
    unfold bind, ret, modify, throw. rewrite Hr, (find_rocket_none None _ Hnone).
    reflexivity. }
  unfold run. cbn [loop]. cbn [running emergency_stop set_running init andb negb].
  rewrite E by (destruct (stop_key t); reflexivity).
  destruct (stop_key t); repeat split.
Qed.

Lemma debug_run_fails_without_rocket_witness :
  fst (run true [Scenario.blank_tick; Scenario.quiet_tick] (Some KeyboardInterrupt)
           (init (Some Scenario.game)))
  = Some (Propagated OtherException)
  /\ pointer (snd (run true [Scenario.blank_tick; Scenario.quiet_tick]
                       (Some KeyboardInterrupt) (init (Some Scenario.game)))) = []
  /\ mouse_pressed (snd (run true [Scenario.blank_tick; Scenario.quiet_tick]
                             (Some KeyboardInterrupt) (init (Some Scenario.game)))) = false.
Proof.
  apply debug_run_fails_without_rocket; [reflexivity | intros c []].
Defined.

End FirstFrame.

(** ** The game region *)

Section GameRegion.
Import RocketRun RocketSetup.

Lemma np_int_div (n d : Z) : 0 < d -> np_int (IZR n / IZR d) = Z.quot n d.
Proof.
  intros Hd. pose proof (Z.quot_rem' n d) as Hn.
  assert (Hdr : (0 < IZR d)%R) by now apply IZR_lt.
  assert (Hr : (IZR n / IZR d = IZR (Z.quot n d) + IZR (Z.rem n d) / IZR d)%R).
  { rewrite Hn at 1. rewrite plus_IZR, mult_IZR. field. lra. }
  assert (Hfrac : forall r, 0 <= r < d -> (0 <= IZR r / IZR d < 1)%R).
  { intros r [H1 H2]. apply IZR_le in H1. apply IZR_lt in H2.
    destruct (Rdiv_lt_cross 1 (IZR r) (IZR d) Hdr) as [_ Hc]. split.
    - apply Rmult_le_pos; [exact H1 | apply Rlt_le, Rinv_0_lt_compat, Hdr].
    - apply Hc. lra. }
  unfold np_int. destruct (Rle_dec 0 (IZR n / IZR d)) as [Hpos | Hneg].
  - assert (0 <= n).
    { apply le_IZR. destruct (Rdiv_lt_cross 0 (IZR n) (IZR d) Hdr) as [_ Hc].
      destruct (Rle_dec 0 (IZR n)) as [|Hlt]; [assumption|].
      assert (IZR n < 0 * IZR d)%R by lra. apply Hc in H. lra. }
    pose proof (Hfrac _ (Z.rem_bound_pos n d ltac:(lia) Hd)).
    symmetry. apply Int_part_spec. lra.
  - assert (n <= 0).
    { apply le_IZR. destruct (Rle_dec (IZR n) 0) as [|Hgt]; [assumption|].
      exfalso. apply Hneg. apply Rmult_le_pos; [lra | apply Rlt_le, Rinv_0_lt_compat, Hdr]. }
    pose proof (Z.rem_bound_pos_neg n d Hd ltac:(lia)) as Hb.
    assert (Hb' : 0 <= - Z.rem n d < d) by lia.
    pose proof (Hfrac _ Hb') as Hf. rewrite opp_IZR in Hf.
    assert (E : - Z.quot n d = Int_part (- (IZR n / IZR d))).
    { apply Int_part_spec. rewrite opp_IZR.
      replace (- IZR (Z.rem n d) / IZR d)%R with (- (IZR (Z.rem n d) / IZR d))%R in Hf
        by (field; lra).
      lra. }
    lia.
Qed.

Lemma largest_loop_spec (rest : list contour) :
  forall best,
  exists before after,
    best :: rest = before ++ largest_loop best rest :: after
    /\ (forall c, In c before ->
                  (contourArea c < contourArea (largest_loop best rest))%R)
    /\ (forall c, In c after ->
                  (contourArea c <= contourArea (largest_loop best rest))%R).
Proof.
  induction rest as [|c rest IH]; intros best; simpl.
  - exists [], []. repeat split; intros ? [].
  - destruct (Rltb (contourArea best) (contourArea c)) eqn:E.
    + apply Rltb_true in E.
      destruct (IH c) as (bef & aft & Hsplit & Hbef & Haft).
      remember (largest_loop c rest) as big.
      exists (best :: bef), aft. split; [simpl; now rewrite <- Hsplit|].
      split; [|exact Haft].
      intros c' [<- | Hin]; [|now apply Hbef].
      destruct bef as [|b bef]; simpl in Hsplit; injection Hsplit as Hhead _.
      * now rewrite <- Hhead.
      * assert (contourArea b < contourArea big)%R by (apply Hbef; now left).
        rewrite <- Hhead in H. lra.
    + apply Rltb_false in E.
      destruct (IH best) as (bef & aft & Hsplit & Hbef & Haft).
      remember (largest_loop best rest) as big.
      destruct bef as [|b bef]; simpl in Hsplit; injection Hsplit as Hhead Hrest.
      * exists [], (c :: aft). split; [simpl; now rewrite Hhead, Hrest|].
        split; [intros ? []|].
        intros c' [<- | Hin]; [|now apply Haft].
        now rewrite <- Hhead.
      * exists (b :: c :: bef), aft. split; [simpl; now rewrite Hhead, Hrest|].
        split; [|exact Haft].
        intros c' [<- | [<- | Hin]].
        -- apply Hbef. now left.
        -- assert (contourArea b < contourArea big)%R by (apply Hbef; now left).
           rewrite <- Hhead in H. lra.
        -- apply Hbef. now right.
Qed.

(** X12.  [find_game_window] answers False and leaves the bot unchanged
    when the screenshot has no teal contour.  Otherwise it answers True
    and sets the game region from the bounding box (x, y, w, h) of the
    teal contour of the largest area, the earliest among equally large
    ones: left x, top y, width w and height 9 w / 5 rounded toward zero;
    the height of the box is not used, and nothing else of the bot
    changes. *)
Theorem find_game_window_takes_largest (contours : list contour) (s : bot) :
  (contours = [] -> find_game_window contours s = (false, s))
  /\ (contours <> [] ->
      exists before big after x y w h,
        contours = before ++ big :: after
        /\ boundingRect big = (x, y, w, h)
        /\ (forall c, In c before -> (contourArea c < contourArea big)%R)
        /\ (forall c, In c after -> (contourArea c <= contourArea big)%R)
        /\ find_game_window contours s
           = (true,
              with_game_region
                (Some {| left := x; top := y; width := w; height := Z.quot (9 * w) 5 |}) s)).
Proof.
  split; [intros ->; reflexivity|].
  destruct contours as [|c rest]; [intros H; now elim H | intros _].
  destruct (largest_loop_spec rest c) as (bef & aft & Hsplit & Hbef & Haft).
  destruct (boundingRect (largest_loop c rest)) as [[[x y] w] h] eqn:Eb.
  exists bef, (largest_loop c rest), aft, x, y, w, h.
  repeat split; auto.
  unfold find_game_window. rewrite Eb. do 4 f_equal.
  rewrite <- (np_int_div (9 * w) 5) by lia. f_equal. rewrite mult_IZR. lra.
Qed.

End GameRegion.

(** ** Detection and clicks of the click bot *)

Section RedBoxes.
Import ShooterBot ShooterVision.

Lemma find_red_boxes_filter (contours : list contour) :
  find_red_boxes contours
  = map boundingRect
        (filter (fun c => Rltb 100 (contourArea c) && Rltb (contourArea c) 5000
                          && (let '(_, _, w, h) := boundingRect c in nearly_square w h)
                          && Nat.eqb (approx_len c) 4)
                contours).
Proof.
  induction contours as [|c rest IH]; simpl; [reflexivity|].
  destruct (Rltb 100 (contourArea c) && Rltb (contourArea c) 5000);
    cbn [andb]; [|exact IH].
  destruct (boundingRect c) as [[[x y] w] h] eqn:Eb.
  pose proof (aspect_red_boxes w h) as Ha. cbv zeta in Ha. rewrite Ha.
  destruct (nearly_square w h); cbn [andb]; [|exact IH].
  destruct (Nat.eqb (approx_len c) 4); simpl; [|exact IH].
  now rewrite Eb, IH.
Qed.

Lemma find_red_boxes_shape (contours : list contour) (x y w h : Z) :
  In (x, y, w, h) (find_red_boxes contours) ->
  0 < h /\ 4 * h < 5 * w /\ 5 * w < 6 * h
  /\ exists c, In c contours /\ boundingRect c = (x, y, w, h)
               /\ (100 < contourArea c < 5000)%R /\ approx_len c = 4%nat.
Proof.
  rewrite find_red_boxes_filter. intros Hin. apply in_map_iff in Hin.
  destruct Hin as (c & Eb & Hf). apply filter_In in Hf. destruct Hf as [Hin Hok].
  rewrite Eb in Hok.
  apply andb_prop in Hok. destruct Hok as [Hok H4].
  apply andb_prop in Hok. destruct Hok as [Harea Hsq].
  apply andb_prop in Harea. destruct Harea as [A1 A2]. apply Rltb_true in A1, A2.
  unfold nearly_square in Hsq.
  apply andb_prop in Hsq. destruct Hsq as [Hsq H3]. apply andb_prop in Hsq.
  destruct Hsq as [H1 H2]. apply Z.ltb_lt in H1, H2, H3. apply Nat.eqb_eq in H4.
  repeat split; auto. exists c. repeat split; auto.
Qed.

(** X13.  [find_red_boxes] returns, in the order of the contour list,
    the bounding boxes of exactly the contours whose area is strictly
    between 100 and 5000, whose box has a positive height with
    4 h < 5 w < 6 h, and whose outline simplifies to four corners; so
    every red box has positive width and height. *)
Theorem find_red_boxes_keeps_nearly_square (contours : list contour) :
  find_red_boxes contours
  = map boundingRect
        (filter (fun c => Rltb 100 (contourArea c) && Rltb (contourArea c) 5000
                          && (let '(_, _, w, h) := boundingRect c in nearly_square w h)
                          && Nat.eqb (approx_len c) 4)
                contours)
  /\ (forall x y w h,
         In (x, y, w, h) (find_red_boxes contours) ->
         0 < w /\ 0 < h /\ 4 * h < 5 * w /\ 5 * w < 6 * h).
Proof.
  split; [apply find_red_boxes_filter|].
  intros x y w h Hin. destruct (find_red_boxes_shape _ _ _ _ _ Hin) as (H1 & H2 & H3 & _).
  repeat split; lia.
Qed.

(** X14.  A click that an iteration dispatches on the boxes of
    [find_red_boxes] goes to one of those boxes, and its screen point is
    the region origin plus a point inside that box. *)
Theorem click_lands_inside_red_box
        (contours : list contour) (reg : region) (click_delay now : R)
        (s : locals) (c : click) :
  clicks (iteration reg click_delay
                    {| current_time := now; red_boxes := find_red_boxes contours |} s)
  = c :: clicks s ->
  In (target c) (find_red_boxes contours)
  /\ exists x y w h px py,
      target c = (x, y, w, h)
      /\ screen c = (left reg + px, top reg + py)
      /\ x <= px < x + w /\ y <= py < y + h.
Proof.
  intros Hc.
  destruct (iteration_cases reg click_delay
              {| current_time := now; red_boxes := find_red_boxes contours |} s)
    as [Heq | (c0 & Hc0 & _ & _ & Hfirst & Hscreen & _)].
  - rewrite Heq in Hc. exfalso. exact (cons_neq_self _ _ Hc).
  - rewrite Hc0 in Hc. inversion Hc; subst c0. cbn [red_boxes] in Hfirst.
    apply first_box_min in Hfirst. destruct Hfirst as [Hin _].
    split; [exact Hin|].
    destruct (target c) as [[[x y] w] h] eqn:Et.
    destruct (find_red_boxes_shape _ _ _ _ _ Hin) as (Hh & H1 & H2 & _).
    exists x, y, w, h, (x + w / 2), (y + h / 2).
    assert (0 <= w / 2 < w) by (split; [apply Z.div_pos | apply Z.div_lt_upper_bound]; lia).
    assert (0 <= h / 2 < h) by (split; [apply Z.div_pos | apply Z.div_lt_upper_bound]; lia).
    repeat split; auto; lia.
Qed.

End RedBoxes.

Section RedBoxRuns.
Import ShooterBot.

Lemma red_square_click :
  clicks (iteration Scenario.capture 0.5
            {| current_time := 1;
               red_boxes := ShooterVision.find_red_boxes [ShooterTrace.red_square] |}
            ShooterTrace.fresh)
  = {| at_time := 1; target := (10, 10, 21, 21); screen := (320, 220) |}
      :: clicks ShooterTrace.fresh.
Proof.
  unfold ShooterVision.find_red_boxes, ShooterTrace.red_square. simpl.
  float_cmp. simpl. unfold iteration. simpl. float_cmp. reflexivity.
Qed.

Lemma click_lands_inside_red_box_witness :
  In (10, 10, 21, 21) (ShooterVision.find_red_boxes [ShooterTrace.red_square])
  /\ exists x y w h px py,
      (10, 10, 21, 21) = (x, y, w, h)
      /\ (320, 220) = (left Scenario.capture + px, top Scenario.capture + py)
      /\ x <= px < x + w /\ y <= py < y + h.
Proof.
  exact (click_lands_inside_red_box [ShooterTrace.red_square] Scenario.capture 0.5 1
           ShooterTrace.fresh _ red_square_click).
Defined.

Variable reg : region.
Variable click_delay : R.

Lemma loop_counts (obs : list observation) :
  forall s, total_clicks s = Z.of_nat (length (clicks s)) ->
            total_clicks (loop reg click_delay obs s)
            = Z.of_nat (length (clicks (loop reg click_delay obs s))).
Proof.
  induction obs as [|o obs IH]; intros s Hs; simpl; [exact Hs|].
  apply IH. unfold iteration.
  destruct (negb (length (red_boxes o) =? 0)%nat
            && Rgeb (current_time o - last_click_time s) click_delay); [|exact Hs].
  destruct (first_box (red_boxes o)) as [b|]; [|exact Hs].
  destruct (click_point b). cbn [total_clicks clicks length]. lia.
Qed.

Lemma spaced_from_zero (log : list click) :
  spaced click_delay log ->
  (IZR (Z.of_nat (length log)) * click_delay <= newest_time log)%R.
Proof.
  induction log as [|c log IH]; intros Hs.
  - simpl. lra.
  - destruct Hs as [H1 Hs]. specialize (IH Hs).
    cbn [length newest_time]. rewrite Nat2Z.inj_succ, succ_IZR. lra.
Qed.

Lemma spaced_span (mid : list click) :
  forall c c' older,
    spaced click_delay (c :: mid ++ c' :: older) ->
    (IZR (Z.of_nat (length mid) + 1) * click_delay <= at_time c - at_time c')%R.
Proof.
  induction mid as [|m mid IH]; intros c c' older [H1 Hs].
  - simpl in *. lra.
  - specialize (IH m c' older Hs). cbn [app newest_time] in H1.
    cbn [length]. rewrite Nat2Z.inj_succ, plus_IZR, succ_IZR in *. lra.
Qed.

(** X15.  At any point of a run of the click bot the counter
    [total_clicks] is the number of clicks dispatched so far, and the
    clock reading of the n-th click is at least n times [click_delay];
    between a click and the k-th click after it at least k times
    [click_delay] pass. *)
Theorem click_count_and_pace (obs : list observation) :
  total_clicks (run_bot reg click_delay obs)
  = Z.of_nat (length (clicks (run_bot reg click_delay obs)))
  /\ (forall newer c older,
         clicks (run_bot reg click_delay obs) = newer ++ c :: older ->
         (IZR (Z.of_nat (length older) + 1) * click_delay <= at_time c)%R)
  /\ (forall newer c mid c' older,
         clicks (run_bot reg click_delay obs) = newer ++ c :: mid ++ c' :: older ->
         (IZR (Z.of_nat (length mid) + 1) * click_delay <= at_time c - at_time c')%R).
Proof.
  assert (Hs : spaced click_delay (clicks (run_bot reg click_delay obs))).
  { unfold run_bot. apply loop_invariant; simpl; auto. }
  split; [|split].
  - unfold run_bot. apply loop_counts. reflexivity.
  - intros newer c older Hlog. rewrite Hlog in Hs. apply spaced_tail in Hs.
    pose proof (spaced_from_zero _ Hs) as H. cbn [length newest_time] in H.
    rewrite Nat2Z.inj_succ, succ_IZR in H. rewrite plus_IZR. exact H.
  - intros newer c mid c' older Hlog. rewrite Hlog in Hs. apply spaced_tail in Hs.
    now apply (spaced_span mid c c' older).
Qed.

End RedBoxRuns.

(** ** The click bot with its calls *)

Section ClickCalls.
Import ShooterBot ShooterTrace.

Variable reg : region.
Variable debug : bool.
Variable click_delay : R.

Lemma quiet_iteration (t : ShooterRun.tick) (s : locals) :
  ShooterRun.raised t = None ->
  ShooterRun.iteration reg debug click_delay t (state_of s)
  = (ShooterRun.Ok tt, state_of (iteration reg click_delay (ShooterRun.seen t) s)).
Proof.
  intros Hq.
  unfold ShooterRun.iteration, ShooterRun.click_box, ShooterRun.bind, ShooterRun.call.
  rewrite Hq. unfold iteration. cbn [ShooterRun.ret state_of ShooterRun.last_click_time].
  destruct (negb (length (red_boxes (ShooterRun.seen t)) =? 0)%nat
            && Rgeb (current_time (ShooterRun.seen t) - last_click_time s) click_delay).
  - destruct (first_box (red_boxes (ShooterRun.seen t))) as [b|].
    + destruct (click_point b) as [click_x click_y]. destruct debug; reflexivity.
    + destruct debug; reflexivity.
  - destruct debug; reflexivity.
Qed.

Lemma quiet_loop (ticks : list ShooterRun.tick) :
  Forall quiet ticks ->
  forall s,
    ShooterRun.loop reg debug click_delay ticks (state_of s)
    = (None, state_of (loop reg click_delay (map ShooterRun.seen ticks) s)).
Proof.
  induction 1 as [|t ticks [Hr He] _ IH]; intros s; [reflexivity|].
  cbn [ShooterRun.loop map loop]. cbn [ShooterRun.emergency_stop state_of].
  rewrite He, (quiet_iteration t s Hr). apply IH.
Qed.

Lemma shooter_loop_app (before rest : list ShooterRun.tick) :
  forall s s1,
    ShooterRun.loop reg debug click_delay before s = (None, s1) ->
    ShooterRun.loop reg debug click_delay (before ++ rest) s
    = ShooterRun.loop reg debug click_delay rest s1.
Proof.
  induction before as [|t before IH]; intros s s1 H.
  - simpl in H. destruct (ShooterRun.emergency_stop s) eqn:E; [discriminate|].
    now inversion H.
  - simpl in *. destruct (ShooterRun.emergency_stop s); [discriminate|].
    destruct (ShooterRun.iteration reg debug click_delay t
                (if ShooterRun.esc_key t then ShooterRun.on_press s else s))
      as [[[]|e] s']; [now apply IH | discriminate].
Qed.

(** X16.  As long as no call raises and ESC is not pressed, the loop of
    [run_bot] keeps running, its counter and [last_click_time] are those
    of the click logic alone, and the pointer has received, for every
    click dispatched, a press at the click's screen point followed by a
    release, and nothing else. *)
Theorem quiet_run_clicks_and_releases (ticks : list ShooterRun.tick) :
  Forall quiet ticks ->
  fst (ShooterRun.run_bot reg debug click_delay ticks false) = None
  /\ ShooterRun.total_clicks (snd (ShooterRun.run_bot reg debug click_delay ticks false))
     = total_clicks (run_bot reg click_delay (map ShooterRun.seen ticks))
  /\ ShooterRun.last_click_time (snd (ShooterRun.run_bot reg debug click_delay ticks false))
     = last_click_time (run_bot reg click_delay (map ShooterRun.seen ticks))
  /\ ShooterRun.pointer (snd (ShooterRun.run_bot reg debug click_delay ticks false))
     = ops_of_clicks (clicks (run_bot reg click_delay (map ShooterRun.seen ticks)))
  /\ ShooterRun.button_down
       (ShooterRun.pointer (snd (ShooterRun.run_bot reg debug click_delay ticks false)))
     = false.
Proof.
  intros Hq. unfold ShooterRun.run_bot.
  change (ShooterRun.start false) with (state_of fresh).
  rewrite (quiet_loop ticks Hq fresh). fold (run_bot reg click_delay (map ShooterRun.seen ticks)).
  cbn [fst snd state_of ShooterRun.total_clicks ShooterRun.last_click_time ShooterRun.pointer].
  repeat split.
  now destruct (clicks (loop reg click_delay (map ShooterRun.seen ticks) fresh)).
Qed.

(** X17.  When the hold of a click is interrupted from the keyboard, the
    press has been sent and the release has not: [run_bot] catches the
    interrupt and returns with the button still held, since its [finally]
    block sends no pointer operation, and the click is not counted. *)
Theorem interrupted_hold_leaves_button_down
        (before rest : list ShooterRun.tick) (t : ShooterRun.tick) :
  Forall quiet before ->
  ShooterRun.raised t = Some (ShooterRun.KeyboardInterrupt, ShooterRun.HoldSleep) ->
  red_boxes (ShooterRun.seen t) <> [] ->
  (click_delay
   <= current_time (ShooterRun.seen t)
      - last_click_time (run_bot reg click_delay (map ShooterRun.seen before)))%R ->
  exists b x y s',
    ShooterRun.run_bot reg debug click_delay (before ++ t :: rest) false
    = (Some (ShooterRun.Returned (ShooterRun.Raised ShooterRun.KeyboardInterrupt)), s')
    /\ first_box (red_boxes (ShooterRun.seen t)) = Some b
    /\ click_box (fst (click_point b)) (snd (click_point b)) reg = (x, y)
    /\ ShooterRun.pointer s'
       = ShooterRun.MouseDownAt x y
           :: ops_of_clicks (clicks (run_bot reg click_delay (map ShooterRun.seen before)))
    /\ ShooterRun.button_down (ShooterRun.pointer s') = true
    /\ ShooterRun.total_clicks s'
       = total_clicks (run_bot reg click_delay (map ShooterRun.seen before)).
Proof.
  intros Hq Hr Hne Hd.
  destruct (first_box (red_boxes (ShooterRun.seen t))) as [b|] eqn:Eb;
    [|apply first_box_none in Eb; contradiction].
  set (s0 := run_bot reg click_delay (map ShooterRun.seen before)) in *.
  exists b, (left reg + fst (click_point b)), (top reg + snd (click_point b)).
  assert (Hit : forall s, ShooterRun.last_click_time s = last_click_time s0 ->
                  ShooterRun.iteration reg debug click_delay t s
                  = (ShooterRun.Raise ShooterRun.KeyboardInterrupt,
                     ShooterRun.do_pointer
                       (ShooterRun.MouseDownAt (left reg + fst (click_point b))
                                               (top reg + snd (click_point b))) s)).
  { intros s Hs.
    unfold ShooterRun.iteration, ShooterRun.click_box, ShooterRun.bind, ShooterRun.call.
    rewrite Hr. cbn [ShooterRun.site_eqb ShooterRun.ret]. rewrite Hs, Eb.
    rewrite (proj2 (Rgeb_true _ _) Hd).
    destruct (red_boxes (ShooterRun.seen t)) as [|b0 l]; [now elim Hne|].
    cbn [length Nat.eqb negb andb]. destruct (click_point b) as [click_x click_y].
    reflexivity. }
  eexists. unfold ShooterRun.run_bot.
  change (ShooterRun.start false) with (state_of fresh).
  rewrite (shooter_loop_app before (t :: rest) _ _ (quiet_loop before Hq fresh)).
  fold (run_bot reg click_delay (map ShooterRun.seen before)). fold s0.
  cbn [ShooterRun.loop ShooterRun.emergency_stop state_of].
  rewrite Hit by (destruct (ShooterRun.esc_key t); reflexivity).
  split; [reflexivity|].
  split; [reflexivity|].
  split; [unfold click_box; reflexivity|].
  destruct (ShooterRun.esc_key t); repeat split.
Qed.

End ClickCalls.

Section ClickExits.
Import ShooterBot ShooterTrace.

Lemma quiet_run_clicks_and_releases_witness :
  Forall quiet [ShooterTrace.quiet_tick]
  /\ fst (ShooterRun.run_bot Scenario.capture false 0.5 [ShooterTrace.quiet_tick] false)
     = None
  /\ ShooterRun.pointer
       (snd (ShooterRun.run_bot Scenario.capture false 0.5 [ShooterTrace.quiet_tick] false))
     = ops_of_clicks
         (clicks (run_bot Scenario.capture 0.5
                          (map ShooterRun.seen [ShooterTrace.quiet_tick]))).
Proof.
  assert (H : Forall quiet [ShooterTrace.quiet_tick])
    by (repeat constructor).
  split; [exact H|].
  pose proof (quiet_run_clicks_and_releases Scenario.capture false 0.5
                [ShooterTrace.quiet_tick] H) as (H1 & _ & _ & H4 & _).
  split; [exact H1 | exact H4].
Defined.

Lemma interrupted_hold_leaves_button_down_witness :
  exists b x y s',
    ShooterRun.run_bot Scenario.capture false 0.5
                       ([] ++ ShooterTrace.held_tick :: [ShooterTrace.quiet_tick]) false
    = (Some (ShooterRun.Returned (ShooterRun.Raised ShooterRun.KeyboardInterrupt)), s')
    /\ first_box (red_boxes (ShooterRun.seen ShooterTrace.held_tick)) = Some b
    /\ click_box (fst (click_point b)) (snd (click_point b)) Scenario.capture = (x, y)
    /\ ShooterRun.pointer s'
       = ShooterRun.MouseDownAt x y
           :: ops_of_clicks (clicks (run_bot Scenario.capture 0.5 (map ShooterRun.seen [])))
    /\ ShooterRun.button_down (ShooterRun.pointer s') = true
    /\ ShooterRun.total_clicks s'
       = total_clicks (run_bot Scenario.capture 0.5 (map ShooterRun.seen [])).
Proof.
  apply (interrupted_hold_leaves_button_down Scenario.capture false 0.5 []
           [ShooterTrace.quiet_tick] ShooterTrace.held_tick).
  - constructor.
  - reflexivity.
  - discriminate.
  - simpl. lra.
Defined.

Lemma iteration_leaves_button_up
      (reg : region) (debug : bool) (click_delay : R) (t : ShooterRun.tick)
      (s s' : ShooterRun.state) (r : unit) :
  ShooterRun.button_down (ShooterRun.pointer s) = false ->
  ShooterRun.iteration reg debug click_delay t s = (ShooterRun.Ok r, s') ->
  ShooterRun.button_down (ShooterRun.pointer s') = false.
Proof.
  intros Hs.
  unfold ShooterRun.iteration, ShooterRun.click_box, ShooterRun.bind, ShooterRun.call.
  destruct (negb (length (red_boxes (ShooterRun.seen t)) =? 0)%nat
            && Rgeb (current_time (ShooterRun.seen t) - ShooterRun.last_click_time s)
                    click_delay) eqn:Ec;
    destruct (first_box (red_boxes (ShooterRun.seen t))) as [b|];
    try destruct (click_point b) as [click_x click_y];
    destruct (ShooterRun.raised t) as [[e st]|]; try destruct st; destruct debug;
    cbn; rewrite ?Ec; cbn; intros H; inversion H; subst; auto.
Qed.

(** X18.  While the loop of [run_bot] is running, and when it has been
    stopped by ESC, the button is up: every click that an iteration
    completes is a press followed by its release.  The button can only be
    left held when an exception ends the run. *)
Theorem click_bot_button_up_unless_raised
        (reg : region) (debug : bool) (click_delay : R)
        (ticks : list ShooterRun.tick) (stop : bool) :
  fst (ShooterRun.run_bot reg debug click_delay ticks stop) = None
  \/ fst (ShooterRun.run_bot reg debug click_delay ticks stop)
     = Some (ShooterRun.Returned ShooterRun.Stopped) ->
  ShooterRun.button_down
    (ShooterRun.pointer (snd (ShooterRun.run_bot reg debug click_delay ticks stop)))
  = false.
Proof.
  assert (Hloop : forall ticks s,
             ShooterRun.button_down (ShooterRun.pointer s) = false ->
             fst (ShooterRun.loop reg debug click_delay ticks s) = None
             \/ fst (ShooterRun.loop reg debug click_delay ticks s)
                = Some ShooterRun.Stopped ->
             ShooterRun.button_down
               (ShooterRun.pointer (snd (ShooterRun.loop reg debug click_delay ticks s)))
             = false).
  { clear ticks. induction ticks as [|t ticks IH]; intros s Hs; simpl.
    - destruct (ShooterRun.emergency_stop s); intros _; exact Hs.
    - destruct (ShooterRun.emergency_stop s); [intros _; exact Hs|].
      destruct (ShooterRun.iteration reg debug click_delay t
                  (if ShooterRun.esc_key t then ShooterRun.on_press s else s))
        as [[r|e] s'] eqn:Ei.
      + apply IH. eapply iteration_leaves_button_up; [|exact Ei].
        now destruct (ShooterRun.esc_key t).
      + simpl. intros [H | H]; discriminate. }
  unfold ShooterRun.run_bot. specialize (Hloop ticks (ShooterRun.start stop) eq_refl).
  destruct (ShooterRun.loop reg debug click_delay ticks (ShooterRun.start stop))
    as [[[|[|]]|] sl]; simpl in *; intros [H | H]; try discriminate; auto.
Qed.

(** ESC during an iteration that clicks: the click is completed, press and
    release, and the loop ends at its next test. *)
Lemma esc_click_run :
  ShooterRun.run_bot Scenario.capture false 0.5
                     [ShooterTrace.esc_tick; ShooterTrace.held_tick] false
  = (Some (ShooterRun.Returned ShooterRun.Stopped),
     {| ShooterRun.total_clicks := 1; ShooterRun.last_click_time := 1;
        ShooterRun.emergency_stop := true;
        ShooterRun.pointer := [ShooterRun.MouseUp; ShooterRun.MouseDownAt 320 220] |}).
Proof.
  unfold ShooterRun.run_bot, ShooterRun.loop, ShooterRun.iteration, ShooterRun.click_box.
  unfold ShooterRun.bind, ShooterRun.call, ShooterRun.ret, ShooterRun.modify. simpl.
  float_cmp. reflexivity.
Qed.

Lemma click_bot_button_up_unless_raised_witness :
  (fst (ShooterRun.run_bot Scenario.capture false 0.5
                           [ShooterTrace.esc_tick; ShooterTrace.held_tick] false) = None
   \/ fst (ShooterRun.run_bot Scenario.capture false 0.5
                              [ShooterTrace.esc_tick; ShooterTrace.held_tick] false)
      = Some (ShooterRun.Returned ShooterRun.Stopped))
  /\ ShooterRun.pointer
       (snd (ShooterRun.run_bot Scenario.capture false 0.5
                                [ShooterTrace.esc_tick; ShooterTrace.held_tick] false))
     = [ShooterRun.MouseUp; ShooterRun.MouseDownAt 320 220]
  /\ ShooterRun.button_down
       (ShooterRun.pointer
          (snd (ShooterRun.run_bot Scenario.capture false 0.5
                                   [ShooterTrace.esc_tick; ShooterTrace.held_tick] false)))
     = false.
Proof.
  assert (H : fst (ShooterRun.run_bot Scenario.capture false 0.5
                     [ShooterTrace.esc_tick; ShooterTrace.held_tick] false) = None
              \/ fst (ShooterRun.run_bot Scenario.capture false 0.5
                        [ShooterTrace.esc_tick; ShooterTrace.held_tick] false)
                 = Some (ShooterRun.Returned ShooterRun.Stopped))
    by (right; now rewrite esc_click_run).
  split; [exact H|].
  split; [now rewrite esc_click_run|].
  exact (click_bot_button_up_unless_raised Scenario.capture false 0.5
           [ShooterTrace.esc_tick; ShooterTrace.held_tick] false H).
Defined.

End ClickExits.

(** ** Steering on the last known position *)

Section LastKnown.
Import RocketRun RocketSetup.

Lemma calculate_safe_move_some (rx ry : Z) (items : list item)
      (fireballs : list fireball) (frame_width : Z) :
  exists tx ty,
    calculate_safe_move (Some (rx, ry)) items fireballs frame_width = Some (tx, ty).
Proof.
  unfold calculate_safe_move.
  destruct (fst (item_loop (danger_zones fireballs) rx ry items None Inf)) as [[tx ty]|];
    eauto.
Qed.

(** X19.  Once the button is held, an iteration whose frame shows no
    contour that [find_rocket] accepts still plans and drags: it plans
    from the stored rocket position, which it keeps, and moves the pointer
    to the planned column on the row of that stored position. *)
Theorem drags_from_last_known_position
        (reg : region) (rx ry : Z) (t : tick) (target : local_target) (s : bot) :
  game_region s = Some reg ->
  rocket_pos s = Some (rx, ry) ->
  mouse_pressed s = true ->
  raised t = None ->
  (forall c, In c (purple (grabbed t)) -> ~ rocket_like c) ->
  exists tx ty,
    calculate_safe_move (Some (rx, ry)) (find_items (white (grabbed t)))
                        (find_fireballs (orange (grabbed t))) (shape1 (grabbed t))
    = Some (tx, ty)
    /\ fst (iteration false t target s) = Ok (Continue, Some (Some (tx, ty)))
    /\ pointer (snd (iteration false t target s))
       = MoveTo (left reg + tx) (top reg + ry) :: pointer s
    /\ rocket_pos (snd (iteration false t target s)) = Some (rx, ry).
Proof.
  intros Hg Hr Hm Hq Hnone.
  destruct (calculate_safe_move_some rx ry (find_items (white (grabbed t)))
              (find_fireballs (orange (grabbed t))) (shape1 (grabbed t)))
    as (tx & ty & Hplan).
  exists tx, ty. split; [exact Hplan|].
  unfold iteration, bind, capture_game, call. rewrite Hg, Hq.
  unfold bind, ret, modify, throw.
  rewrite Hr, (find_rocket_none (Some (rx, ry)) _ Hnone), Hplan.
  unfold move_rocket. cbn [game_region set_rocket_pos mouse_pressed].
  rewrite Hg, Hm. cbn [negb]. unfold bind, call. rewrite Hq.
  unfold ret, modify. cbn. repeat split.
Qed.

Lemma drags_from_last_known_position_witness :
  exists tx ty,
    calculate_safe_move (Some (30, 30))
                        (find_items (white (grabbed Scenario.blank_tick)))
                        (find_fireballs (orange (grabbed Scenario.blank_tick)))
                        (shape1 (grabbed Scenario.blank_tick))
    = Some (tx, ty)
    /\ fst (iteration false Scenario.blank_tick None
                      (set_mouse_pressed true
                         (set_rocket_pos (Some (30, 30)) (init (Some Scenario.game)))))
       = Ok (Continue, Some (Some (tx, ty)))
    /\ pointer (snd (iteration false Scenario.blank_tick None
                               (set_mouse_pressed true
                                  (set_rocket_pos (Some (30, 30))
                                     (init (Some Scenario.game))))))
       = MoveTo (left Scenario.game + tx) (top Scenario.game + 30)
           :: pointer (set_mouse_pressed true
                         (set_rocket_pos (Some (30, 30)) (init (Some Scenario.game))))
    /\ rocket_pos (snd (iteration false Scenario.blank_tick None
                                  (set_mouse_pressed true
                                     (set_rocket_pos (Some (30, 30))
                                        (init (Some Scenario.game))))))
       = Some (30, 30).
Proof.
  apply (drags_from_last_known_position Scenario.game 30 30 Scenario.blank_tick None);
    try reflexivity.
  intros c [].
Defined.

End LastKnown.
